(** * getUniqueDomElements: the modern implementation, embedded and verified

    The development follows the modern implementation of the script:
    [getUniqueDomElements] (option 1), [getUniqueDomElementsRobust]
    (option 2), [getUniqueDomElementsWithMetadata] (option 3),
    [analyzeDomStructure] and [getMaxNestingDepth].

    The host objects the script reads (the document, its elements, the
    built-in [Set], [Map], [Array.prototype.sort], [Object.fromEntries]) are
    modelled first; the script's functions are then transcribed line by
    line on top of them. *)

From Stdlib Require Import List String Ascii ZArith NArith Lia Bool.
From Stdlib Require Import Sorting.Sorted Sorting.Permutation.
Import ListNotations.

Local Open Scope string_scope.
Local Open Scope Z_scope.
Local Open Scope list_scope.

Set Warnings "-register-all".

(* ================================================================== *)
(** ** JavaScript built-ins used by the script *)
(* ================================================================== *)

Module JS.

(** Strings are sequences of code units; the code units modelled are
    [0..255], which covers every ASCII tag name. *)

(** The default comparison of [Array.prototype.sort] on strings:
    code unit by code unit, a proper prefix first. *)
Definition SortCompare (x y : string) : Z :=
  match String.compare x y with
  | Lt => -1
  | Eq => 0
  | Gt => 1
  end.

(** [String.prototype.toLowerCase] on one code unit: [A-Z] and the
    Latin-1 capitals [U+00C0..U+00DE] (without the multiplication sign
    [U+00D7]) move up by 32, every other code unit is unchanged. *)
Definition lower_code_unit (c : ascii) : ascii :=
  let n := N_of_ascii c in
  if ((65 <=? n) && (n <=? 90)
      || (192 <=? n) && (n <=? 222) && negb (n =? 215))%N
  then ascii_of_N (n + 32)
  else c.

Fixpoint toLowerCase (s : string) : string :=
  match s with
  | EmptyString => EmptyString
  | String c s' => String (lower_code_unit c) (toLowerCase s')
  end.

Section ArraySort.
Context {A : Type}.
(** [comparefn a b > 0] asks for [a] after [b]. *)
Variable comparefn : A -> A -> Z.

(** [Array.prototype.sort] is stable: of two elements that compare
    equal the one that came first stays first.  For a consistent
    comparison function the result is therefore determined, and it
    is the one a stable insertion sort computes. *)
Fixpoint sort_insert (x : A) (l : list A) : list A :=
  match l with
  | [] => [x]
  | y :: l' =>
      if comparefn x y <=? 0 then x :: y :: l'
      else y :: sort_insert x l'
  end.

Fixpoint Array_sort_by (l : list A) : list A :=
  match l with
  | [] => []
  | x :: l' => sort_insert x (Array_sort_by l')
  end.
End ArraySort.

(** [arr.sort()] on an array of strings. *)
Definition Array_sort : list string -> list string :=
  Array_sort_by SortCompare.

(** [new Set(iterable)] followed by a spread: the values in insertion
    order, a value already present is not added again. *)
Definition Set_has (s : list string) (x : string) : bool :=
  existsb (String.eqb x) s.

Definition Set_add (s : list string) (x : string) : list string :=
  if Set_has s x then s else s ++ [x].

Definition Set_from (l : list string) : list string :=
  fold_left Set_add l [].

(** Keyed collections that remember the order in which their keys were
    created: the entries of a [Map], and the own properties of an
    object before enumeration. *)
Section Keyed.
Context {V : Type}.

Fixpoint Map_get (k : string) (m : list (string * V)) : option V :=
  match m with
  | [] => None
  | (k', v) :: m' => if String.eqb k k' then Some v else Map_get k m'
  end.

Definition Map_has (k : string) (m : list (string * V)) : bool :=
  match Map_get k m with Some _ => true | None => false end.

(** [m.set(k, v)]: an existing key keeps its place, a new key goes
    to the end. *)
Fixpoint Map_set (k : string) (v : V) (m : list (string * V))
  : list (string * V) :=
  match m with
  | [] => [(k, v)]
  | (k', v') :: m' =>
      if String.eqb k k' then (k, v) :: m'
      else (k', v') :: Map_set k v m'
  end.

Definition Map_keys (m : list (string * V)) : list string := map fst m.
Definition Map_values (m : list (string * V)) : list V := map snd m.
Definition Map_size (m : list (string * V)) : Z := Z.of_nat (List.length m).
End Keyed.

(** Property keys that are array indices: the canonical decimal form
    of an integer below [2^32 - 1]. *)
Definition digit_of (c : ascii) : option N :=
  let n := N_of_ascii c in
  if ((48 <=? n) && (n <=? 57))%N then Some (n - 48)%N else None.

Fixpoint parse_digits (s : string) (acc : N) : option N :=
  match s with
  | EmptyString => Some acc
  | String c s' =>
      match digit_of c with
      | Some d => parse_digits s' (10 * acc + d)%N
      | None => None
      end
  end.

Definition array_index (s : string) : option N :=
  match s with
  | EmptyString => None
  | String c s' =>
      if Ascii.eqb c "0"%char && negb (String.eqb s' EmptyString) then None
      else match parse_digits s 0%N with
           | Some n => if (n <? 2 ^ 32 - 1)%N then Some n else None
           | None => None
           end
  end.

Definition is_array_index (s : string) : bool :=
  match array_index s with Some _ => true | None => false end.

Section Objects.
Context {V : Type}.

(** [Object.fromEntries(entries)]: the properties are defined one
    after the other, a repeated key overwrites. *)
Definition Object_fromEntries (entries : list (string * V))
  : list (string * V) :=
  fold_left (fun o kv => Map_set (fst kv) (snd kv) o) entries [].

Definition index_of_entry (kv : string * V) : N :=
  match array_index (fst kv) with Some n => n | None => 0%N end.

(** [Object.entries(o)]: own properties are enumerated with the
    array indices first, in ascending numeric order, then the other
    string keys in the order of their creation. *)
Definition Object_entries (o : list (string * V)) : list (string * V) :=
  Array_sort_by
    (fun a b => Z.of_N (index_of_entry a) - Z.of_N (index_of_entry b))
    (filter (fun kv => is_array_index (fst kv)) o)
  ++ filter (fun kv => negb (is_array_index (fst kv))) o.
End Objects.

(** [o[k] = v] for a string [v] on an object created by [{}]: an own
    property is created, or updated in place, under every name but
    [__proto__].  Under that name the assignment reaches the setter
    inherited from [Object.prototype], which ignores a value that is
    neither an object nor [null]: the object is left as it is. *)
Definition Object_assign (o : list (string * string)) (k v : string)
  : list (string * string) :=
  if String.eqb k "__proto__" then o else Map_set k v o.

(** What a call evaluates to: a value, or a thrown exception. *)
Inductive Exception : Type :=
| Error (message : string)
| TypeError.

Inductive Completion (A : Type) : Type :=
| Return (a : A)
| Throw (e : Exception).
Arguments Return {A} a.
Arguments Throw {A} e.

End JS.

(* ================================================================== *)
(** ** The document *)
(* ================================================================== *)

Module DOM.

(** An element: its [tagName], its attributes ([name], [value]) in
    order, its [classList] and its element children in document
    order. *)
Inductive Element : Type :=
| mkElement (tagName : string)
            (attributes : list (string * string))
            (classList : list string)
            (children : list Element).

Definition tagName (e : Element) : string :=
  match e with mkElement t _ _ _ => t end.
Definition attributes (e : Element) : list (string * string) :=
  match e with mkElement _ a _ _ => a end.
Definition classList (e : Element) : list string :=
  match e with mkElement _ _ c _ => c end.
Definition children (e : Element) : list Element :=
  match e with mkElement _ _ _ cs => cs end.

(** Induction on the tree: a property holds of an element when it
    holds of its children. *)
Section ElementInduction.
Variable P : Element -> Prop.
Hypothesis step :
  forall t a c cs, Forall P cs -> P (mkElement t a c cs).

Fixpoint Element_induction (e : Element) : P e :=
  match e with
  | mkElement t a c cs =>
      step t a c cs
        ((fix all (l : list Element) : Forall P l :=
            match l with
            | [] => Forall_nil P
            | x :: l' => Forall_cons x (Element_induction x) (all l')
            end) cs)
  end.
End ElementInduction.

(** [element.querySelectorAll('*')]: every element below [element],
    in document order (an element before its own descendants, siblings
    left to right); [element] itself is not part of it. *)
Fixpoint querySelectorAll (element : Element) : list Element :=
  match element with
  | mkElement _ _ _ cs =>
      flat_map (fun c => c :: querySelectorAll c) cs
  end.

(** [document.body] is an element or [null]. *)
Record Document : Type := mkDocument { body : option Element }.

(** The values the [container] option may hold: [undefined], [null],
    the primitives (numbers are the integers, so [0] stands for the
    falsy numbers) and elements. *)
Inductive Value : Type :=
| VUndefined
| VNull
| VBoolean (b : bool)
| VNumber (n : Z)
| VString (s : string)
| VElement (e : Element).

Definition ToBoolean (v : Value) : bool :=
  match v with
  | VUndefined | VNull => false
  | VBoolean b => b
  | VNumber n => negb (n =? 0)
  | VString s => negb (String.eqb s EmptyString)
  | VElement _ => true
  end.

Definition body_value (document : Document) : Value :=
  match body document with
  | Some b => VElement b
  | None => VNull
  end.

End DOM.

Import JS DOM.

(* ================================================================== *)
(** ** The script *)
(* ================================================================== *)

Module Scripts.

(** [document.body?.querySelectorAll('*') || []]: a node list is an
    object, hence truthy, so the empty array stands in exactly when
    [document.body] is [null]. *)
Definition bodyElements (document : Document) : list Element :=
  match body document with
  | Some b => querySelectorAll b
  | None => []
  end.

(** *** Option 1 *)

Definition getUniqueDomElements (document : Document) : list string :=
  let bodyElements := bodyElements document in
  let uniqueTagNames := Set_from (map tagName bodyElements) in
  Array_sort uniqueTagNames.

(** *** Option 2 *)

(** The options object: a field is [None] when the property is not
    there. The three flags are booleans, as documented. *)
Record Options : Type := mkOptions {
  opt_container : option Value;
  opt_includeContainer : option bool;
  opt_toLowerCase : option bool;
  opt_sortResults : option bool
}.

(** [{}], the default of the [options] parameter. *)
Definition no_options : Options := mkOptions None None None None.

(** A destructuring default applies when the property is missing or
    holds [undefined]. *)
Definition container_or_default (field : option Value) (dflt : Value)
  : Value :=
  match field with
  | None | Some VUndefined => dflt
  | Some v => v
  end.

Definition flag_or_default (field : option bool) (dflt : bool) : bool :=
  match field with
  | None => dflt
  | Some b => b
  end.

Definition ContainerNotFound : Exception :=
  Error "Container element not found".

(** [options] is [None] when the function is called without
    argument. *)
Definition getUniqueDomElementsRobust
  (document : Document) (options : option Options)
  : Completion (list string) :=
  let options := match options with Some o => o | None => no_options end in
  let container :=
    container_or_default (opt_container options) (body_value document) in
  let includeContainer :=
    flag_or_default (opt_includeContainer options) false in
  let toLowerCase := flag_or_default (opt_toLowerCase options) false in
  let sortResults := flag_or_default (opt_sortResults options) true in
  if negb (ToBoolean container) then Throw ContainerNotFound
  else
    match container with
    | VElement container =>
        let elements := querySelectorAll container in
        let tagNames :=
          map (fun el =>
                 if toLowerCase then JS.toLowerCase (tagName el)
                 else tagName el) elements in
        let tagNames :=
          if includeContainer
          then tagNames ++ [if toLowerCase
                            then JS.toLowerCase (tagName container)
                            else tagName container]
          else tagNames in
        let unique := Set_from tagNames in
        Return (if sortResults then Array_sort unique else unique)
    | _ =>
        (* a truthy value that is not an element has no
           [querySelectorAll] method to call *)
        Throw TypeError
    end.

(** *** Option 3 *)

(** [firstInstanceAttributes] holds the own properties of the snapshot
    object in the order of their creation; [Object_entries] gives the
    order in which they are enumerated. *)
Record TagMetadata : Type := mkTagMetadata {
  md_tagName : string;
  count : Z;
  firstInstance : Element;
  firstInstanceAttributes : list (string * string);
  firstInstanceClasses : list string
}.

Definition increment_count (r : TagMetadata) : TagMetadata :=
  mkTagMetadata (md_tagName r) (count r + 1) (firstInstance r)
                (firstInstanceAttributes r) (firstInstanceClasses r).

(** The body of the [forEach] callback, on the map built so far. *)
Definition record_element (elementMap : list (string * TagMetadata))
  (element : Element) : list (string * TagMetadata) :=
  let tagName := tagName element in
  let elementMap :=
    if negb (Map_has tagName elementMap)
    then Map_set tagName
           (mkTagMetadata tagName 0 element
              (fold_left
                 (fun acc attr => Object_assign acc (fst attr) (snd attr))
                 (attributes element) [])
              (classList element))
           elementMap
    else elementMap in
  (* [elementMap.get(tagName).count++] updates the stored object *)
  match Map_get tagName elementMap with
  | Some r => Map_set tagName (increment_count r) elementMap
  | None => elementMap
  end.

Definition build_elementMap (document : Document)
  : list (string * TagMetadata) :=
  fold_left record_element (bodyElements document) [].

(** The function returns an array of strings or an array of metadata
    objects. *)
Inductive MetadataResult : Type :=
| TagNames (names : list string)
| Metadata (records : list TagMetadata).

Section WithLocale.
(** [String.prototype.localeCompare] is provided by the host and
    depends on its locale. *)
Variable localeCompare : string -> string -> Z.

Definition getUniqueDomElementsWithMetadata
  (document : Document) (includeMetadata : bool) : MetadataResult :=
  let elementMap := build_elementMap document in
  if includeMetadata
  then Metadata
         (Array_sort_by
            (fun a b => localeCompare (md_tagName a) (md_tagName b))
            (Map_values elementMap))
  else TagNames (Array_sort (Map_keys elementMap)).
End WithLocale.

(** *** Utility functions *)

(** [calculateDepth] assigns the variable [maxDepth] of the enclosing
    call; the variable is threaded through here. *)
Fixpoint calculateDepth (element : Element) (currentDepth : Z)
  (maxDepth : Z) : Z :=
  match element with
  | mkElement _ _ _ children =>
      let maxDepth := Z.max maxDepth currentDepth in
      fold_left
        (fun maxDepth child => calculateDepth child (currentDepth + 1) maxDepth)
        children maxDepth
  end.

Definition getMaxNestingDepth (document : Document) : Z :=
  let maxDepth := 0 in
  match body document with
  | Some b => calculateDepth b 0 maxDepth
  | None => maxDepth
  end.

Record Analysis : Type := mkAnalysis {
  totalElements : Z;
  uniqueElements : Z;
  mostCommon : option (string * Z);
  leastCommon : option (string * Z);
  elementFrequency : list (string * Z);
  deepestNesting : Z
}.

Definition count_tag (tagCounts : list (string * Z)) (el : Element)
  : list (string * Z) :=
  Map_set (tagName el)
    (match Map_get (tagName el) tagCounts with
     | Some n => (if n =? 0 then 0 else n) + 1
     | None => 0 + 1
     end)
    tagCounts.

Definition build_tagCounts (document : Document) : list (string * Z) :=
  fold_left count_tag (bodyElements document) [].

Definition sortedByCount (document : Document) : list (string * Z) :=
  Array_sort_by (fun a b => snd b - snd a) (build_tagCounts document).

Definition analyzeDomStructure (document : Document) : Analysis :=
  let bodyElements := bodyElements document in
  let tagCounts := build_tagCounts document in
  let sortedByCount := sortedByCount document in
  {| totalElements := Z.of_nat (List.length bodyElements);
     uniqueElements := Map_size tagCounts;
     mostCommon := hd_error sortedByCount;
     leastCommon := last (map Some sortedByCount) None;
     elementFrequency := Object_fromEntries sortedByCount;
     deepestNesting := getMaxNestingDepth document |}.

End Scripts.

Import Scripts.

(* ================================================================== *)
(** ** Notions the properties are stated with *)
(* ================================================================== *)

Module Spec.

(** [Descendant root e]: [e] is reached from [root] by following one or
    more child links. *)
Inductive Descendant (root : Element) : Element -> Prop :=
| Descendant_child c :
    In c (children root) -> Descendant root c
| Descendant_below c e :
    In c (children root) -> Descendant c e -> Descendant root e.

(** The elements below the default root, [document.body]. *)
Definition BodyDescendant (document : Document) (e : Element) : Prop :=
  exists b, body document = Some b /\ Descendant b e.

(** Strict lexicographic order on labels, by code unit. *)
Definition label_lt (s1 s2 : string) : Prop := String.compare s1 s2 = Lt.

(** Number of elements below [e]. *)
Fixpoint descendant_count (e : Element) : Z :=
  match e with
  | mkElement _ _ _ cs =>
      fold_right (fun c acc => 1 + descendant_count c + acc) 0 cs
  end.

(** Nesting depth below [e]: [0] without children, otherwise one more
    than the deepest child. *)
Fixpoint nesting_depth (e : Element) : Z :=
  match e with
  | mkElement _ _ _ cs =>
      fold_right (fun c acc => Z.max (1 + nesting_depth c) acc) 0 cs
  end.

(** The tag names met by the traversal, in traversal order. *)
Definition visited_tags (document : Document) : list string :=
  map tagName (bodyElements document).

(** How often label [t] occurs in a sequence of labels. *)
Fixpoint occurrences (t : string) (tags : list string) : Z :=
  match tags with
  | [] => 0
  | x :: tags' =>
      (if String.eqb x t then 1 else 0) + occurrences t tags'
  end.

(** Position of the first occurrence of [t]; the length of the sequence
    when [t] does not occur. *)
Fixpoint first_seen (t : string) (tags : list string) : nat :=
  match tags with
  | [] => O
  | x :: tags' => if String.eqb x t then O else S (first_seen t tags')
  end.

Definition sum_Z (l : list Z) : Z := fold_right Z.add 0 l.

(** [r] is a label with its count, the count is the largest one, and
    among the labels with that count [r]'s was seen first. *)
Definition MostFrequentFirstSeen (tags : list string) (r : string * Z)
  : Prop :=
  In (fst r) tags /\ snd r = occurrences (fst r) tags /\
  forall t, In t tags ->
    occurrences t tags <= snd r /\
    (occurrences t tags = snd r ->
     (first_seen (fst r) tags <= first_seen t tags)%nat).

(** The same for the smallest count. *)
Definition LeastFrequentFirstSeen (tags : list string) (r : string * Z)
  : Prop :=
  In (fst r) tags /\ snd r = occurrences (fst r) tags /\
  forall t, In t tags ->
    snd r <= occurrences t tags /\
    (occurrences t tags = snd r ->
     (first_seen (fst r) tags <= first_seen t tags)%nat).

(** The smallest count, and among the labels with that count the one
    that was seen last for the first time. *)
Definition LeastFrequentLastSeen (tags : list string) (r : string * Z)
  : Prop :=
  In (fst r) tags /\ snd r = occurrences (fst r) tags /\
  forall t, In t tags ->
    snd r <= occurrences t tags /\
    (occurrences t tags = snd r ->
     (first_seen t tags <= first_seen (fst r) tags)%nat).

(** Order of the frequency table's entries: larger count first, equal
    counts in the order in which the labels were first seen. *)
Definition frequency_order (tags : list string) (a b : string * Z) : Prop :=
  snd b < snd a \/
  (snd a = snd b /\ (first_seen (fst a) tags < first_seen (fst b) tags)%nat).

(** Order in which the labels were first seen. *)
Definition first_seen_order (tags : list string) (a b : string * Z) : Prop :=
  (first_seen (fst a) tags < first_seen (fst b) tags)%nat.

(** The value of the last attribute called [name]. *)
Definition last_attribute (name : string) (e : Element) : option string :=
  Map_get name (rev (attributes e)).

(** The names an attribute snapshot has: the names of the attributes,
    each at its first occurrence, [__proto__] left out. *)
Definition snapshot_names (e : Element) : list string :=
  Set_from (filter (fun name => negb (String.eqb name "__proto__"))
                   (map fst (attributes e))).

(** The attribute snapshot taken from an element: under each of these
    names the value of the last attribute that has the name. *)
Definition attribute_snapshot (e : Element) : list (string * string) :=
  map (fun name =>
         (name, match last_attribute name e with
                | Some value => value
                | None => EmptyString
                end))
      (snapshot_names e).

(** The first element of the traversal that carries label [t]. *)
Definition first_instance_of (t : string) (els : list Element)
  : option Element :=
  find (fun e => String.eqb (tagName e) t) els.

(** The order of the sorted array: by [comparefn], and by the original
    position where [comparefn] does not decide. *)
Definition stable_order {A : Type} (comparefn : A -> A -> Z)
  (before : A -> A -> Prop) (a b : A) : Prop :=
  comparefn a b <= 0 /\ (0 <= comparefn a b -> before a b).

(** The container the call works on: the value supplied in the options
    when there is one and it is not [undefined], [document.body]
    otherwise. *)
Definition resolved_container (document : Document)
  (options : option Options) : Value :=
  match options with
  | Some (mkOptions (Some VUndefined) _ _ _) => body_value document
  | Some (mkOptions (Some v) _ _ _) => v
  | Some (mkOptions None _ _ _) => body_value document
  | None => body_value document
  end.

(** The degenerate result of the analysis. *)
Definition empty_analysis : Analysis :=
  {| totalElements := 0;
     uniqueElements := 0;
     mostCommon := None;
     leastCommon := None;
     elementFrequency := [];
     deepestNesting := 0 |}.

(** The count a label has in the map, [0] when it has none. *)
Definition count_in (tagCounts : list (string * Z)) (t : string) : Z :=
  match Map_get t tagCounts with Some n => n | None => 0 end.

(** The record stored when a label is met for the first time. *)
Definition fresh_metadata (element : Element) : TagMetadata :=
  mkTagMetadata (tagName element) 0 element
                (fold_left
                   (fun acc attr => Object_assign acc (fst attr) (snd attr))
                   (attributes element) [])
                (classList element).

(** The record a label should end up with: its count, and the first
    element that carries it with the snapshot of that element. *)
Definition metadata_of (els : list Element) (t : string)
  : option TagMetadata :=
  match first_instance_of t els with
  | Some e =>
      Some (mkTagMetadata t (occurrences t (map tagName els)) e
                          (attribute_snapshot e) (classList e))
  | None => None
  end.

(** The lowercase listing and the listing in original case stand in
    one-to-one correspondence under [toLowerCase]. *)
Definition LowerCaseBijection (document : Document)
  (container : option Value) (includeContainer sortResults : option bool)
  : Prop :=
  match getUniqueDomElementsRobust document
          (Some (mkOptions container includeContainer (Some true)
                           sortResults)),
        getUniqueDomElementsRobust document
          (Some (mkOptions container includeContainer (Some false)
                           sortResults))
  with
  | Return lower, Return upper =>
      Permutation lower (map JS.toLowerCase upper)
  | Throw e1, Throw e2 => e1 = e2
  | _, _ => False
  end.

(** No two labels of [tags] have the same lowercase form. *)
Definition CaseDistinct (tags : list string) : Prop :=
  forall u u', In u tags -> In u' tags ->
               JS.toLowerCase u = JS.toLowerCase u' -> u = u'.

End Spec.

Import Spec.

(* ================================================================== *)
(** ** Sample documents *)
(* ================================================================== *)

Definition leaf (t : string) : Element := mkElement t [] [] [].
Definition node (t : string) (cs : list Element) : Element :=
  mkElement t [] [] cs.

(** [<body><div><span></span></div><p></p></body>] *)
Definition doc_div_span_p : Document :=
  mkDocument (Some (node "BODY" [node "DIV" [leaf "SPAN"]; leaf "P"])).

(** A document without [body]. *)
Definition doc_no_body : Document := mkDocument None.

(** [<body><div></div><p></p></body>] *)
Definition doc_div_p : Document :=
  mkDocument (Some (node "BODY" [leaf "DIV"; leaf "P"])).

(** [<body><p></p><div></div><div></div></body>] *)
Definition doc_p_div_div : Document :=
  mkDocument (Some (node "BODY" [leaf "P"; leaf "DIV"; leaf "DIV"])).

(** [<body><a></a><svg><a></a></svg></body>]: the [a] of the HTML
    namespace reports [A], the one inside [svg] keeps its case. *)
Definition doc_html_svg_a : Document :=
  mkDocument (Some (node "BODY" [leaf "A"; node "svg" [leaf "a"]])).

(* ================================================================== *)
(** ** The legacy script *)
(* ================================================================== *)

Module Legacy.

(** The whole document: its root element, when it has one. *)
Record FullDocument : Type :=
  mkFullDocument { documentElement : option Element }.

(** [document.getElementsByTagName("*")]: every element of the
    document in tree order, the root first. *)
Definition getElementsByTagName_all (document : FullDocument)
  : list Element :=
  match documentElement document with
  | Some root => root :: querySelectorAll root
  | None => []
  end.

(** The loop of the [findIndex] polyfill, from index [i] on the rest of
    the list: the first index whose value satisfies the predicate,
    [-1] when the loop runs to the end. *)
Fixpoint findIndex_loop {A : Type} (predicate : A -> Z -> bool)
  (list : list A) (i : Z) : Z :=
  match list with
  | [] => -1
  | value :: rest =>
      if predicate value i then i
      else findIndex_loop predicate rest (i + 1)
  end.

(** [Array.prototype.findIndex] as the polyfill defines it; the
    predicate is [None] when the argument is not a function. *)
Definition findIndex {A : Type} (this : list A)
  (predicate : option (A -> Z -> bool)) : Completion Z :=
  match predicate with
  | None => Throw TypeError
  | Some predicate => Return (findIndex_loop predicate this 0)
  end.

(** [array.indexOf(item)]: the first index that holds [item], [-1]
    when there is none. *)
Fixpoint indexOf_from (item : string) (array : list string) (i : Z) : Z :=
  match array with
  | [] => -1
  | x :: array' =>
      if String.eqb x item then i else indexOf_from item array' (i + 1)
  end.

Definition indexOf (item : string) (array : list string) : Z :=
  indexOf_from item array 0.

(** [array.filter(callback)], the callback receiving the item and its
    index. *)
Fixpoint filter_indexed {A : Type} (callback : A -> Z -> bool)
  (array : list A) (index : Z) : list A :=
  match array with
  | [] => []
  | item :: array' =>
      if callback item index
      then item :: filter_indexed callback array' (index + 1)
      else filter_indexed callback array' (index + 1)
  end.

(** [array[i]]: [undefined] ([None]) outside the array. *)
Definition array_at {A : Type} (array : list A) (i : Z) : option A :=
  if i <? 0 then None else nth_error array (Z.to_nat i).

(** The loop of [getUniqueBodyElements]: [iterations] rounds of
    [uniqueBodyElements.push(uniqueDomElements[i]); i++]. *)
Fixpoint push_loop (uniqueDomElements : list string) (i : Z)
  (iterations : nat) (uniqueBodyElements : list (option string))
  : list (option string) :=
  match iterations with
  | O => uniqueBodyElements
  | S n =>
      push_loop uniqueDomElements (i + 1) n
                (uniqueBodyElements ++ [array_at uniqueDomElements i])
  end.

(** The names of all elements, each kept at its first occurrence. *)
Definition uniqueDomElements (domElementNames : list string)
  : list string :=
  filter_indexed
    (fun item index => indexOf item domElementNames =? index)
    domElementNames 0.

(** The legacy [getUniqueDomElements]; an entry of the result is [None]
    when the array holds [undefined] there. *)
Definition getUniqueDomElements (document : FullDocument)
  : Completion (list (option string)) :=
  let domArray := getElementsByTagName_all document in
  (* [nodeName] of an element is its [tagName] *)
  let domElementNames := map tagName domArray in
  let uniqueDomElements := uniqueDomElements domElementNames in
  match findIndex uniqueDomElements
          (Some (fun item _ => String.eqb item "BODY")) with
  | Throw e => Throw e
  | Return indexOfBodyElement =>
      (* the loop runs while [i < uniqueDomElements.length] *)
      Return
        (push_loop uniqueDomElements indexOfBodyElement
           (Z.to_nat (Z.of_nat (List.length uniqueDomElements)
                      - indexOfBodyElement))
           [])
  end.

End Legacy.

(* ================================================================== *)
(** ** Further notions *)
(* ================================================================== *)

Module Views.

(** The label of an element in the chosen case. *)
Definition label_of (toLowerCase : bool) (e : Element) : string :=
  if toLowerCase then JS.toLowerCase (tagName e) else tagName e.

(** The labels in the order in which option 2 meets them: the elements
    below the container in document order, then the container itself
    when it is included. *)
Definition labelled_sequence (container : Element)
  (includeContainer toLowerCase : bool) : list string :=
  map (label_of toLowerCase) (querySelectorAll container)
  ++ (if includeContainer then [label_of toLowerCase container] else []).

(** The names of all elements of the document, in tree order. *)
Definition all_names (document : Legacy.FullDocument) : list string :=
  map tagName (Legacy.getElementsByTagName_all document).

End Views.

Import Views.

(** [<html><head><script></script></head>
     <body><div></div><script></script></body></html>] *)
Definition doc_html_head_body : Legacy.FullDocument :=
  Legacy.mkFullDocument
    (Some (node "HTML" [node "HEAD" [leaf "SCRIPT"];
                        node "BODY" [leaf "DIV"; leaf "SCRIPT"]])).

(** An SVG document: [<svg><g></g></svg>]. *)
Definition doc_svg : Legacy.FullDocument :=
  Legacy.mkFullDocument (Some (node "svg" [leaf "g"])).

(* ================================================================== *)
(** ** The document tree *)
(* ================================================================== *)


Lemma querySelectorAll_children (e : Element) :
  querySelectorAll e =
  flat_map (fun c => c :: querySelectorAll c) (children e).
Proof. destruct e; reflexivity. Qed.

Lemma querySelectorAll_sound (root : Element) :
  forall e, In e (querySelectorAll root) -> Descendant root e.
Proof.
  induction root as [t a c cs IH] using Element_induction.
  intros e He. simpl in He. apply in_flat_map in He.
  destruct He as [ch [Hch [Heq | Hin]]].
  - subst e. now apply Descendant_child.
  - apply Descendant_below with ch; [exact Hch |].
    rewrite Forall_forall in IH. now apply IH.
Qed.

Lemma querySelectorAll_complete (root e : Element) :
  Descendant root e -> In e (querySelectorAll root).
Proof.
  induction 1 as [root c Hc | root c e Hc _ IH];
    rewrite querySelectorAll_children; apply in_flat_map; exists c;
    split; simpl; auto.
Qed.

Lemma bodyElements_spec (document : Document) (e : Element) :
  In e (bodyElements document) <-> BodyDescendant document e.
Proof.
  unfold bodyElements, BodyDescendant. destruct (body document) as [b |].
  - split.
    + intros H. exists b. split; [reflexivity |].
      now apply querySelectorAll_sound.
    + intros [b' [Hb Hd]]. injection Hb as <-.
      now apply querySelectorAll_complete.
  - split; [intros [] | intros [b' [Hb _]]; discriminate].
Qed.

Lemma querySelectorAll_length (e : Element) :
  Z.of_nat (List.length (querySelectorAll e)) = descendant_count e.
Proof.
  induction e as [t a c cs IH] using Element_induction.
  cbn [querySelectorAll descendant_count].
  induction IH as [| ch cs' Hch _ IHcs]; cbn [flat_map fold_right];
    [reflexivity |].
  rewrite length_app, Nat2Z.inj_add. cbn [List.length].
  rewrite Nat2Z.inj_succ, Hch, IHcs. lia.
Qed.

(* ================================================================== *)
(** ** Sorted lists *)
(* ================================================================== *)

Section StronglySortedFacts.
Context {A : Type}.

Lemma StronglySorted_weaken (R R' : A -> A -> Prop) (l : list A) :
  (forall a b, In a l -> In b l -> R a b -> R' a b) ->
  StronglySorted R l -> StronglySorted R' l.
Proof.
  intros Himp Hs. induction Hs as [| x l Hs IH Hx]; constructor.
  - apply IH. intros a b Ha Hb. apply Himp; now right.
  - rewrite Forall_forall in *. intros y Hy.
    apply Himp; [now left | now right | now apply Hx].
Qed.

Lemma StronglySorted_snoc (R : A -> A -> Prop) (l : list A) (x : A) :
  StronglySorted R l -> (forall a, In a l -> R a x) ->
  StronglySorted R (l ++ [x]).
Proof.
  intros Hs Hx. induction Hs as [| y l Hs IH Hy]; simpl.
  - repeat constructor.
  - constructor.
    + apply IH. intros a Ha. apply Hx. now right.
    + apply Forall_app. split; [exact Hy |].
      constructor; [apply Hx; now left | constructor].
Qed.

Lemma StronglySorted_last (R : A -> A -> Prop) (l : list A) (x : A) :
  StronglySorted R (l ++ [x]) -> forall a, In a l -> R a x.
Proof.
  induction l as [| y l IH]; simpl; intros Hs a Ha; [destruct Ha |].
  apply StronglySorted_inv in Hs. destruct Hs as [Hs Hy].
  destruct Ha as [<- | Ha].
  - rewrite Forall_forall in Hy. apply Hy, in_or_app. right. now left.
  - now apply IH.
Qed.

Lemma StronglySorted_NoDup (l : list A) :
  NoDup l -> StronglySorted (fun a b => a <> b) l.
Proof.
  induction 1 as [| x l Hx _ IH]; constructor; [exact IH |].
  apply Forall_forall. intros y Hy ->. contradiction.
Qed.

Lemma StronglySorted_irrefl_NoDup (R : A -> A -> Prop) (l : list A) :
  (forall a, ~ R a a) -> StronglySorted R l -> NoDup l.
Proof.
  intros Hirr. induction 1 as [| x l _ IH Hx]; constructor; [| exact IH].
  intros Hin. rewrite Forall_forall in Hx. exact (Hirr x (Hx x Hin)).
Qed.

Lemma StronglySorted_map {B : Type} (f : B -> A) (R : A -> A -> Prop)
  (l : list B) :
  StronglySorted (fun a b => R (f a) (f b)) l ->
  StronglySorted R (map f l).
Proof.
  induction 1 as [| x l _ IH Hx]; simpl; constructor; [exact IH |].
  apply Forall_forall. intros y Hy. apply in_map_iff in Hy.
  destruct Hy as [z [<- Hz]]. rewrite Forall_forall in Hx. now apply Hx.
Qed.

Lemma last_snoc (l : list A) (x d : A) : last (l ++ [x]) d = x.
Proof.
  induction l as [| y l IH]; [reflexivity |].
  simpl. destruct (l ++ [x]) eqn:E; [| exact IH].
  destruct l; discriminate.
Qed.

Lemma snoc_cases (l : list A) : l = [] \/ exists l' x, l = l' ++ [x].
Proof.
  destruct l as [| y l] using rev_ind; [now left | right].
  now exists l, y.
Qed.
End StronglySortedFacts.

(** *** [Array.prototype.sort] *)

Section ArraySortFacts.
Context {A : Type}.
Variable comparefn : A -> A -> Z.

Lemma sort_insert_Permutation (x : A) (l : list A) :
  Permutation (sort_insert comparefn x l) (x :: l).
Proof.
  induction l as [| y l IH]; simpl; [reflexivity |].
  destruct (comparefn x y <=? 0); [reflexivity |].
  rewrite IH. apply perm_swap.
Qed.

Lemma Array_sort_by_Permutation (l : list A) :
  Permutation (Array_sort_by comparefn l) l.
Proof.
  induction l as [| x l IH]; simpl; [reflexivity |].
  rewrite sort_insert_Permutation. now constructor.
Qed.

Lemma Array_sort_by_In (l : list A) (x : A) :
  In x (Array_sort_by comparefn l) <-> In x l.
Proof.
  split; apply Permutation_in;
    [| symmetry]; apply Array_sort_by_Permutation.
Qed.

(** A comparison function is consistent when it induces a total
    preorder. *)
Hypothesis comparefn_flip : forall a b, 0 < comparefn a b -> comparefn b a < 0.
Hypothesis comparefn_trans :
  forall a b c, comparefn a b <= 0 -> comparefn b c <= 0 -> comparefn a c <= 0.

(** [before] is the order of the elements in the array that is
    sorted. *)
Variable before : A -> A -> Prop.


Lemma sort_insert_stable (x : A) (l : list A) :
  StronglySorted (stable_order comparefn before) l ->
  Forall (before x) l ->
  StronglySorted (stable_order comparefn before) (sort_insert comparefn x l).
Proof.
  induction 1 as [| y l Hs IH Hy]; intros Hx; simpl.
  - repeat constructor.
  - apply Forall_inv in Hx as Hxy. apply Forall_inv_tail in Hx.
    destruct (Z.leb_spec (comparefn x y) 0) as [Hle | Hgt].
    + constructor; [now constructor |].
      rewrite Forall_forall in *. intros z [<- | Hz].
      * split; [exact Hle | now intros _].
      * split; [| intros _; now apply Hx].
        apply comparefn_trans with y; [exact Hle | apply (Hy z Hz)].
    + constructor; [now apply IH |].
      apply Forall_forall. intros z Hz.
      apply (Permutation_in _ (sort_insert_Permutation x l)) in Hz.
      destruct Hz as [<- | Hz].
      * apply comparefn_flip in Hgt. split; lia.
      * rewrite Forall_forall in Hy. now apply Hy.
Qed.

Theorem Array_sort_by_stable (l : list A) :
  StronglySorted before l ->
  StronglySorted (stable_order comparefn before)
                 (Array_sort_by comparefn l).
Proof.
  induction 1 as [| x l _ IH Hx]; simpl; [constructor |].
  apply sort_insert_stable; [exact IH |].
  apply Forall_forall. intros y Hy.
  apply (proj1 (Array_sort_by_In l y)) in Hy.
  rewrite Forall_forall in Hx. now apply Hx.
Qed.
End ArraySortFacts.

(** *** The default comparison of strings *)

Lemma ascii_compare_refl (a : ascii) : Ascii.compare a a = Eq.
Proof. unfold Ascii.compare. apply N.compare_refl. Qed.

Lemma string_compare_refl (s : string) : String.compare s s = Eq.
Proof.
  induction s as [| a s IH]; simpl; [reflexivity |].
  now rewrite ascii_compare_refl.
Qed.

Lemma ascii_compare_Lt_trans (a b c : ascii) :
  Ascii.compare a b = Lt -> Ascii.compare b c = Lt -> Ascii.compare a c = Lt.
Proof.
  unfold Ascii.compare. rewrite !N.compare_lt_iff. apply N.lt_trans.
Qed.

Lemma string_compare_Lt_trans (s1 : string) :
  forall s2 s3, String.compare s1 s2 = Lt -> String.compare s2 s3 = Lt ->
                String.compare s1 s3 = Lt.
Proof.
  induction s1 as [| a s1 IH]; intros [| b s2] [| c s3]; simpl;
    try discriminate; try reflexivity.
  destruct (Ascii.compare a b) eqn:Eab; try discriminate;
    destruct (Ascii.compare b c) eqn:Ebc; try discriminate.
  - apply Ascii.compare_eq_iff in Eab, Ebc. subst.
    rewrite ascii_compare_refl. apply IH.
  - apply Ascii.compare_eq_iff in Eab. subst. now rewrite Ebc.
  - apply Ascii.compare_eq_iff in Ebc. subst. now rewrite Eab.
  - now rewrite (ascii_compare_Lt_trans _ _ _ Eab Ebc).
Qed.

Lemma SortCompare_flip (a b : string) :
  0 < SortCompare a b -> SortCompare b a < 0.
Proof.
  unfold SortCompare. rewrite (String.compare_antisym a b).
  destruct (String.compare b a); simpl; lia.
Qed.

Lemma SortCompare_Lt (a b : string) :
  SortCompare a b <= 0 -> a <> b -> label_lt a b.
Proof.
  unfold SortCompare, label_lt.
  destruct (String.compare a b) eqn:E; try lia; [| reflexivity].
  apply String.compare_eq_iff in E. contradiction.
Qed.

Lemma SortCompare_trans (a b c : string) :
  SortCompare a b <= 0 -> SortCompare b c <= 0 -> SortCompare a c <= 0.
Proof.
  unfold SortCompare.
  destruct (String.compare a b) eqn:Eab; try lia;
    destruct (String.compare b c) eqn:Ebc; try lia; intros _ _.
  - apply String.compare_eq_iff in Eab, Ebc. subst.
    rewrite string_compare_refl. lia.
  - apply String.compare_eq_iff in Eab. subst. rewrite Ebc. lia.
  - apply String.compare_eq_iff in Ebc. subst. rewrite Eab. lia.
  - rewrite (string_compare_Lt_trans _ _ _ Eab Ebc). lia.
Qed.

Lemma label_lt_irrefl (a : string) : ~ label_lt a a.
Proof. unfold label_lt. now rewrite string_compare_refl. Qed.

Lemma Array_sort_sorted (l : list string) :
  NoDup l -> StronglySorted label_lt (Array_sort l).
Proof.
  intros Hnd. unfold Array_sort.
  apply StronglySorted_weaken
    with (R := stable_order SortCompare (fun a b => a <> b)).
  - intros a b _ _ [Hle Hne]. apply SortCompare_Lt; [exact Hle |].
    destruct (Z.eq_dec (SortCompare a b) 0) as [E | E].
    + apply Hne. lia.
    + intros ->. unfold SortCompare in E.
      now rewrite string_compare_refl in E.
  - apply Array_sort_by_stable.
    + exact SortCompare_flip.
    + exact SortCompare_trans.
    + now apply StronglySorted_NoDup.
Qed.

(* ================================================================== *)
(** ** [Set]: the labels in the order in which they were first seen *)
(* ================================================================== *)

Lemma Set_has_In (s : list string) (x : string) :
  Set_has s x = true <-> In x s.
Proof.
  unfold Set_has. rewrite existsb_exists. split.
  - intros [y [Hy E]]. apply String.eqb_eq in E. now subst.
  - intros H. exists x. split; [exact H | apply String.eqb_refl].
Qed.

Lemma Set_has_not_In (s : list string) (x : string) :
  Set_has s x = false <-> ~ In x s.
Proof.
  rewrite <- Set_has_In. destruct (Set_has s x); split; congruence.
Qed.

Lemma Set_from_snoc (l : list string) (x : string) :
  Set_from (l ++ [x]) = Set_add (Set_from l) x.
Proof. unfold Set_from. now rewrite fold_left_app. Qed.

Lemma Set_from_In (l : list string) (x : string) :
  In x (Set_from l) <-> In x l.
Proof.
  revert x. induction l as [| y l IH] using rev_ind; intros x;
    [reflexivity |].
  rewrite Set_from_snoc, in_app_iff. unfold Set_add.
  destruct (Set_has (Set_from l) y) eqn:E.
  - apply Set_has_In in E. rewrite IH in E. rewrite IH. simpl.
    split; [tauto | intros [H | [<- | []]]; assumption].
  - rewrite in_app_iff, IH. reflexivity.
Qed.

Lemma Set_from_NoDup (l : list string) : NoDup (Set_from l).
Proof.
  induction l as [| y l IH] using rev_ind; [constructor |].
  rewrite Set_from_snoc. unfold Set_add.
  destruct (Set_has (Set_from l) y) eqn:E; [exact IH |].
  apply Set_has_not_In in E.
  apply NoDup_rev in IH. rewrite <- (rev_involutive (_ ++ _)), rev_unit.
  apply NoDup_rev. constructor; [now rewrite <- in_rev | exact IH].
Qed.

Lemma first_seen_app_In (t : string) (l l' : list string) :
  In t l -> first_seen t (l ++ l') = first_seen t l.
Proof.
  induction l as [| x l IH]; simpl; [intros [] |].
  destruct (String.eqb_spec x t) as [_ | Hne]; [reflexivity |].
  intros [-> | H]; [contradiction | now rewrite IH].
Qed.

Lemma first_seen_In_lt (t : string) (l : list string) :
  In t l -> (first_seen t l < List.length l)%nat.
Proof.
  induction l as [| x l IH]; simpl; [intros [] |].
  destruct (String.eqb_spec x t) as [_ | Hne]; [lia |].
  intros [-> | H]; [contradiction | apply IH in H; lia].
Qed.

Lemma first_seen_snoc_new (t : string) (l : list string) :
  ~ In t l -> first_seen t (l ++ [t]) = List.length l.
Proof.
  induction l as [| x l IH]; simpl; intros Hn.
  - now rewrite String.eqb_refl.
  - destruct (String.eqb_spec x t) as [-> | _]; [tauto |].
    rewrite IH; tauto.
Qed.

(** The spread of a [Set] lists each label once, in the order of the
    first occurrences. *)
Lemma Set_from_first_seen (l : list string) :
  StronglySorted (fun a b => (first_seen a l < first_seen b l)%nat)
                 (Set_from l).
Proof.
  induction l as [| y l IH] using rev_ind; [constructor |].
  rewrite Set_from_snoc. unfold Set_add.
  destruct (Set_has (Set_from l) y) eqn:E.
  - eapply StronglySorted_weaken; [| exact IH].
    intros a b Ha Hb. rewrite Set_from_In in Ha, Hb.
    rewrite !first_seen_app_In by assumption. exact (fun H => H).
  - apply Set_has_not_In in E. rewrite Set_from_In in E.
    apply StronglySorted_snoc.
    + eapply StronglySorted_weaken; [| exact IH].
      intros a b Ha Hb. rewrite Set_from_In in Ha, Hb.
      rewrite !first_seen_app_In by assumption. exact (fun H => H).
    + intros a Ha. rewrite Set_from_In in Ha.
      rewrite first_seen_app_In, first_seen_snoc_new by assumption.
      now apply first_seen_In_lt.
Qed.

(* ================================================================== *)
(** ** Option 1: [getUniqueDomElements] *)
(* ================================================================== *)

Lemma visited_tags_In (document : Document) (t : string) :
  In t (visited_tags document) <->
  exists e, BodyDescendant document e /\ tagName e = t.
Proof.
  unfold visited_tags. rewrite in_map_iff. split.
  - intros [e [Ht He]]. exists e. now rewrite <- bodyElements_spec.
  - intros [e [He Ht]]. exists e. now rewrite bodyElements_spec.
Qed.

(** C1. For every document, [getUniqueDomElements] returns exactly the
    tag names of the elements below [document.body] (nothing when there
    is no body), each of them once, in strictly ascending lexicographic
    order. *)
Theorem getUniqueDomElements_distinct_sorted (document : Document) :
  (forall t, In t (getUniqueDomElements document) <->
             exists e, BodyDescendant document e /\ tagName e = t) /\
  NoDup (getUniqueDomElements document) /\
  StronglySorted label_lt (getUniqueDomElements document).
Proof.
  unfold getUniqueDomElements.
  assert (Hs : StronglySorted label_lt
                 (Array_sort (Set_from (map tagName (bodyElements document)))))
    by apply Array_sort_sorted, Set_from_NoDup.
  repeat split.
  - intros H. unfold Array_sort in H.
    rewrite Array_sort_by_In, Set_from_In in H.
    now apply visited_tags_In.
  - intros H. unfold Array_sort.
    rewrite Array_sort_by_In, Set_from_In.
    now apply visited_tags_In.
  - eapply StronglySorted_irrefl_NoDup; [exact label_lt_irrefl | exact Hs].
  - exact Hs.
Qed.

(* ================================================================== *)
(** ** Option 2: the container and the error *)
(* ================================================================== *)



Lemma Robust_throws_iff (document : Document) (options : option Options) :
  getUniqueDomElementsRobust document options = Throw ContainerNotFound <->
  ToBoolean (resolved_container document options) = false.
Proof.
  unfold getUniqueDomElementsRobust, resolved_container.
  destruct options as [[[v |] ic lc sr] |]; simpl.
  - destruct v as [| | b | n | s | e]; simpl;
      try (destruct (ToBoolean (body_value document)) eqn:E;
           [| split; reflexivity]);
      try (split; [discriminate | reflexivity]).
    + unfold body_value in *. destruct (body document); simpl in *;
        [split; discriminate | discriminate].
    + split; reflexivity.
    + destruct b; simpl; split; try discriminate; reflexivity.
    + destruct (n =? 0); simpl; split; try discriminate; reflexivity.
    + destruct (String.eqb s ""); simpl; split; try discriminate;
        reflexivity.
    + split; discriminate.
  - unfold body_value. destruct (body document); simpl;
      split; try discriminate; reflexivity.
  - unfold body_value. destruct (body document); simpl;
      split; try discriminate; reflexivity.
Qed.

(** C3. Whatever the document and the other options, a call whose
    [container] option is [null] throws the error
    [Container element not found]; the call has no other outcome. *)
Theorem Robust_null_container_throws (document : Document)
  (includeContainer toLowerCase sortResults : option bool) :
  getUniqueDomElementsRobust document
    (Some (mkOptions (Some VNull) includeContainer toLowerCase sortResults))
  = Throw ContainerNotFound.
Proof. reflexivity. Qed.

(** C10. A [container] option that is missing or [undefined] is
    replaced by [document.body]: the call is the same as without
    argument as far as the container goes, and the same as the call
    that passes [document.body] explicitly.  The error
    [Container element not found] is thrown exactly when the resolved
    container is falsy. *)
Theorem Robust_undefined_container_is_default (document : Document)
  (includeContainer toLowerCase sortResults : option bool) :
  getUniqueDomElementsRobust document
    (Some (mkOptions (Some VUndefined) includeContainer toLowerCase
                     sortResults))
  = getUniqueDomElementsRobust document
      (Some (mkOptions None includeContainer toLowerCase sortResults)) /\
  getUniqueDomElementsRobust document
    (Some (mkOptions None includeContainer toLowerCase sortResults))
  = getUniqueDomElementsRobust document
      (Some (mkOptions (Some (body_value document)) includeContainer
                       toLowerCase sortResults)) /\
  getUniqueDomElementsRobust document None
  = getUniqueDomElementsRobust document (Some no_options) /\
  (forall options,
     getUniqueDomElementsRobust document options = Throw ContainerNotFound
     <-> ToBoolean (resolved_container document options) = false).
Proof.
  repeat split; try apply Robust_throws_iff.
  unfold getUniqueDomElementsRobust, body_value. simpl.
  destruct (body document); reflexivity.
Qed.

(** C2, as the script has it. Without [document.body] the functions
    that read the body through [?.] return their empty result: no
    labels, no metadata, zero counts, no most or least common label, an
    empty frequency table, depth zero.  [getUniqueDomElementsRobust]
    called without a container (no argument, no [container] property,
    or [undefined]) throws [Container element not found] instead. *)
Theorem no_body_results (document : Document) :
  body document = None ->
  getUniqueDomElements document = [] /\
  (forall localeCompare,
     getUniqueDomElementsWithMetadata localeCompare document false
     = TagNames [] /\
     getUniqueDomElementsWithMetadata localeCompare document true
     = Metadata []) /\
  analyzeDomStructure document = empty_analysis /\
  getMaxNestingDepth document = 0 /\
  getUniqueDomElementsRobust document None = Throw ContainerNotFound /\
  (forall includeContainer toLowerCase sortResults,
     getUniqueDomElementsRobust document
       (Some (mkOptions None includeContainer toLowerCase sortResults))
     = Throw ContainerNotFound /\
     getUniqueDomElementsRobust document
       (Some (mkOptions (Some VUndefined) includeContainer toLowerCase
                        sortResults))
     = Throw ContainerNotFound).
Proof.
  destruct document as [[b |]]; simpl; intros H; [discriminate |].
  repeat split.
Qed.

Lemma no_body_results_witness :
  getUniqueDomElements doc_no_body = [] /\
  analyzeDomStructure doc_no_body = empty_analysis /\
  getUniqueDomElementsRobust doc_no_body None = Throw ContainerNotFound.
Proof.
  destruct (no_body_results doc_no_body eq_refl) as (H1 & _ & H3 & _ & H5 & _).
  exact (conj H1 (conj H3 H5)).
Defined.

(** C2, as stated, fails: without [document.body] the call of
    [getUniqueDomElementsRobust] without argument does not return the
    empty list. *)
Lemma Robust_no_body_not_empty :
  ~ (forall document, body document = None ->
       getUniqueDomElementsRobust document None = Return []).
Proof.
  intros H. specialize (H doc_no_body eq_refl). discriminate H.
Qed.

(* ================================================================== *)
(** ** [getMaxNestingDepth] *)
(* ================================================================== *)

Lemma children_depth_nonneg (cs : list Element) :
  0 <= fold_right (fun c acc => Z.max (1 + nesting_depth c) acc) 0 cs.
Proof. induction cs as [| ch cs IH]; cbn [fold_right]; lia. Qed.

Lemma nesting_depth_nonneg (e : Element) : 0 <= nesting_depth e.
Proof. destruct e as [t a c cs]. apply children_depth_nonneg. Qed.

(** A call of [calculateDepth] leaves in [maxDepth] the larger of its
    former value and the depth of the deepest element below
    [element]. *)
Lemma calculateDepth_spec (element : Element) :
  forall currentDepth maxDepth,
    calculateDepth element currentDepth maxDepth
    = Z.max maxDepth (currentDepth + nesting_depth element).
Proof.
  induction element as [t a c cs IH] using Element_induction.
  intros d m. cbn [calculateDepth nesting_depth].
  transitivity
    (Z.max (Z.max m d)
           (d + fold_right (fun c0 acc => Z.max (1 + nesting_depth c0) acc)
                           0 cs)).
  - assert (Hd : d <= Z.max m d) by lia.
    generalize dependent (Z.max m d). clear m.
    induction IH as [| ch cs Hch _ IHcs]; intros m Hd;
      cbn [fold_left fold_right].
    + lia.
    + rewrite IHcs by (rewrite Hch; lia). rewrite Hch. lia.
  - pose proof (children_depth_nonneg cs). lia.
Qed.

Lemma getMaxNestingDepth_spec (document : Document) :
  getMaxNestingDepth document
  = match body document with
    | Some b => nesting_depth b
    | None => 0
    end.
Proof.
  unfold getMaxNestingDepth. destruct (body document) as [b |];
    [| reflexivity].
  rewrite calculateDepth_spec. pose proof (nesting_depth_nonneg b). lia.
Qed.

Lemma nesting_depth_leaves (cs : list Element) :
  cs <> [] -> Forall (fun c => children c = []) cs ->
  fold_right (fun c acc => Z.max (1 + nesting_depth c) acc) 0 cs = 1.
Proof.
  intros Hne Hall. induction Hall as [| ch cs Hch Hall IH];
    [contradiction |].
  cbn [fold_right]. destruct ch as [t a c gs]. simpl in Hch. subst gs.
  cbn [nesting_depth fold_right].
  destruct cs as [| ch' cs']; [reflexivity |].
  rewrite IH by discriminate. reflexivity.
Qed.

(** C7. [getMaxNestingDepth] walks the tree from [document.body] at
    depth [0], one more per child level, and returns the largest depth
    reached, that is the nesting depth below the body.  It is [0] when
    there is no body, [0] for a body without children, and [1] for a
    body that has children and no grandchildren. *)
Theorem getMaxNestingDepth_depth (document : Document) :
  getMaxNestingDepth document
  = match body document with
    | Some b => nesting_depth b
    | None => 0
    end /\
  (body document = None -> getMaxNestingDepth document = 0) /\
  (forall b, body document = Some b -> children b = [] ->
             getMaxNestingDepth document = 0) /\
  (forall b, body document = Some b -> children b <> [] ->
             Forall (fun c => children c = []) (children b) ->
             getMaxNestingDepth document = 1).
Proof.
  rewrite getMaxNestingDepth_spec. repeat split.
  - now intros ->.
  - intros b -> Hb. destruct b as [t a c cs]. simpl in Hb. now subst cs.
  - intros b -> Hne Hall. destruct b as [t a c cs]. simpl in *.
    now apply nesting_depth_leaves.
Qed.

Lemma getMaxNestingDepth_depth_witness :
  getMaxNestingDepth doc_no_body = 0 /\
  getMaxNestingDepth (mkDocument (Some (leaf "BODY"))) = 0 /\
  getMaxNestingDepth doc_div_p = 1.
Proof.
  split; [| split].
  - apply (getMaxNestingDepth_depth doc_no_body). reflexivity.
  - apply (getMaxNestingDepth_depth (mkDocument (Some (leaf "BODY"))))
      with (b := leaf "BODY"); reflexivity.
  - apply (getMaxNestingDepth_depth doc_div_p)
      with (b := node "BODY" [leaf "DIV"; leaf "P"]).
    + reflexivity.
    + discriminate.
    + repeat constructor.
Defined.

(* ================================================================== *)
(** ** [Map]: keys in insertion order *)
(* ================================================================== *)

Section MapFacts.
Context {V : Type}.
Implicit Types (m : list (string * V)) (k t : string) (v : V).

Lemma Map_get_set t k v m :
  Map_get t (Map_set k v m)
  = if String.eqb t k then Some v else Map_get t m.
Proof.
  induction m as [| [k' v'] m IH]; simpl.
  - destruct (String.eqb t k); reflexivity.
  - destruct (String.eqb_spec k k') as [<- | Hkk']; simpl.
    + destruct (String.eqb t k); reflexivity.
    + rewrite IH. destruct (String.eqb_spec t k) as [-> | _];
        [| reflexivity].
      destruct (String.eqb_spec k k'); [contradiction | reflexivity].
Qed.

Lemma Map_has_keys k m : Map_has k m = Set_has (Map_keys m) k.
Proof.
  unfold Map_has, Set_has.
  induction m as [| [k' v'] m IH]; simpl; [reflexivity |].
  destruct (String.eqb k k'); [reflexivity | exact IH].
Qed.

Lemma Map_keys_set k v m :
  Map_keys (Map_set k v m) = Set_add (Map_keys m) k.
Proof.
  unfold Set_add, Set_has.
  induction m as [| [k' v'] m IH]; simpl; [reflexivity |].
  destruct (String.eqb_spec k k') as [<- | _]; simpl; [reflexivity |].
  rewrite IH. now destruct (existsb (String.eqb k) (Map_keys m)).
Qed.

Lemma Map_get_None k m : Map_get k m = None <-> ~ In k (Map_keys m).
Proof.
  rewrite <- Set_has_not_In, <- Map_has_keys. unfold Map_has.
  destruct (Map_get k m); split; congruence.
Qed.

Lemma Map_get_In k v m :
  NoDup (Map_keys m) -> In (k, v) m -> Map_get k m = Some v.
Proof.
  induction m as [| [k' v'] m IH]; simpl; [intros _ [] |].
  intros Hnd [E | Hin].
  - injection E as -> ->. now rewrite String.eqb_refl.
  - apply NoDup_cons_iff in Hnd. destruct Hnd as [Hk' Hnd].
    destruct (String.eqb_spec k k') as [-> | _].
    + exfalso. apply Hk'. apply in_map_iff. now exists (k', v).
    + now apply IH.
Qed.

Lemma Map_get_Some_In k v m : Map_get k m = Some v -> In (k, v) m.
Proof.
  induction m as [| [k' v'] m IH]; simpl; [discriminate |].
  destruct (String.eqb_spec k k') as [-> | _].
  - intros [= ->]. now left.
  - intros H. right. now apply IH.
Qed.

(** Replacing the value of a key changes a sum over the values by the
    difference of the two summands. *)
Lemma Map_set_sum (g : V -> Z) k v m :
  sum_Z (map g (Map_values (Map_set k v m)))
  = sum_Z (map g (Map_values m))
    - match Map_get k m with Some v0 => g v0 | None => 0 end
    + g v.
Proof.
  unfold Map_values, sum_Z.
  induction m as [| [k' v'] m IH]; simpl; [lia |].
  destruct (String.eqb k k'); simpl; [lia | rewrite IH; lia].
Qed.

(** On entries with distinct keys [Object.fromEntries] creates the
    properties in the order of the entries. *)
Lemma Object_fromEntries_distinct (entries : list (string * V)) :
  NoDup (Map_keys entries) -> Object_fromEntries entries = entries.
Proof.
  unfold Object_fromEntries.
  enough (H : forall acc,
             NoDup (Map_keys (acc ++ entries)) ->
             fold_left (fun o kv => Map_set (fst kv) (snd kv) o) entries acc
             = acc ++ entries) by apply (H []).
  induction entries as [| [k v] entries IH]; intros acc Hnd; simpl.
  - now rewrite app_nil_r.
  - replace (Map_set k v acc) with (acc ++ [(k, v)]).
    + rewrite IH; rewrite <- app_assoc; [reflexivity | exact Hnd].
    + unfold Map_keys in Hnd. rewrite map_app in Hnd.
      apply NoDup_remove_2 in Hnd.
      assert (Hk : ~ In k (Map_keys acc))
        by (intros Hin; apply Hnd, in_or_app; now left).
      clear - Hk. induction acc as [| [k' v'] acc IHa]; simpl;
        [reflexivity |].
      simpl in Hk. destruct (String.eqb_spec k k') as [-> | _];
        [tauto |].
      rewrite <- IHa by tauto. reflexivity.
Qed.

(** Without array indices among the keys the properties are enumerated
    in the order of their creation. *)
Lemma Object_entries_no_index (o : list (string * V)) :
  Forall (fun k => is_array_index k = false) (Map_keys o) ->
  Object_entries o = o.
Proof.
  unfold Object_entries, Map_keys. intros H.
  induction o as [| [k v] o IH]; [reflexivity |].
  simpl in H. apply Forall_cons_iff in H. destruct H as [Hk H].
  specialize (IH H). simpl. rewrite Hk. simpl.
  destruct (filter (fun kv => is_array_index (fst kv)) o) eqn:E.
  - simpl in *. now rewrite IH.
  - exfalso. assert (Hin : In p (filter
                                 (fun kv => is_array_index (fst kv)) o))
      by (rewrite E; now left).
    apply filter_In in Hin. destruct Hin as [Hin Hp].
    rewrite Forall_forall in H.
    rewrite (H (fst p)) in Hp; [discriminate |].
    apply in_map_iff. now exists p.
Qed.
End MapFacts.

Lemma sum_Z_Permutation (l l' : list Z) :
  Permutation l l' -> sum_Z l = sum_Z l'.
Proof. unfold sum_Z. induction 1; simpl; lia. Qed.

Lemma StronglySorted_map_inv {A B : Type} (f : B -> A)
  (R : A -> A -> Prop) (l : list B) :
  StronglySorted R (map f l) ->
  StronglySorted (fun a b => R (f a) (f b)) l.
Proof.
  induction l as [| x l IH]; simpl; intros H; [constructor |].
  apply StronglySorted_inv in H. destruct H as [Hs Hx].
  constructor; [now apply IH |].
  apply Forall_forall. intros y Hy. rewrite Forall_forall in Hx.
  apply Hx. now apply in_map.
Qed.

(* ================================================================== *)
(** ** [analyzeDomStructure]: the tag counts *)
(* ================================================================== *)

Lemma count_tag_keys (tagCounts : list (string * Z)) (el : Element) :
  Map_keys (count_tag tagCounts el)
  = Set_add (Map_keys tagCounts) (tagName el).
Proof. apply Map_keys_set. Qed.

Lemma tagCounts_keys_from (els : list Element) :
  forall tagCounts,
    Map_keys (fold_left count_tag els tagCounts)
    = fold_left Set_add (map tagName els) (Map_keys tagCounts).
Proof.
  induction els as [| el els IH]; intros m; simpl; [reflexivity |].
  now rewrite IH, count_tag_keys.
Qed.

Lemma build_tagCounts_keys (document : Document) :
  Map_keys (build_tagCounts document) = Set_from (visited_tags document).
Proof. apply tagCounts_keys_from. Qed.


Lemma count_tag_count_in (tagCounts : list (string * Z)) (el : Element)
  (t : string) :
  count_in (count_tag tagCounts el) t
  = count_in tagCounts t + (if String.eqb (tagName el) t then 1 else 0).
Proof.
  unfold count_in, count_tag. rewrite Map_get_set, (String.eqb_sym t).
  destruct (String.eqb_spec (tagName el) t) as [-> | _]; [| lia].
  destruct (Map_get t tagCounts) as [n |]; [| reflexivity].
  destruct (Z.eqb_spec n 0); lia.
Qed.

Lemma tagCounts_count_in_from (els : list Element) (t : string) :
  forall tagCounts,
    count_in (fold_left count_tag els tagCounts) t
    = count_in tagCounts t + occurrences t (map tagName els).
Proof.
  induction els as [| el els IH]; intros m; simpl; [lia |].
  rewrite IH, count_tag_count_in. lia.
Qed.

Lemma occurrences_nonneg (t : string) (tags : list string) :
  0 <= occurrences t tags.
Proof.
  induction tags as [| x tags IH]; simpl; [lia |].
  destruct (String.eqb x t); lia.
Qed.

Lemma occurrences_In (t : string) (tags : list string) :
  In t tags <-> 0 < occurrences t tags.
Proof.
  induction tags as [| x tags IH]; simpl; [split; [tauto | lia] |].
  pose proof (occurrences_nonneg t tags).
  destruct (String.eqb_spec x t) as [-> | Hne].
  - split; [lia | now left].
  - rewrite <- IH. split; [intros [E | Hin]; [contradiction | exact Hin] | tauto].
Qed.

(** The map built by the [forEach] loop holds, for each label met, the
    number of elements that carry it, and nothing else. *)
Lemma build_tagCounts_get (document : Document) (t : string) :
  (In t (visited_tags document) ->
   Map_get t (build_tagCounts document)
   = Some (occurrences t (visited_tags document))) /\
  (~ In t (visited_tags document) ->
   Map_get t (build_tagCounts document) = None).
Proof.
  pose proof (tagCounts_count_in_from (bodyElements document) t []) as Hc.
  fold (build_tagCounts document) in Hc. fold (visited_tags document) in Hc.
  pose proof (Map_get_None t (build_tagCounts document)) as Hn.
  rewrite build_tagCounts_keys, Set_from_In in Hn.
  unfold count_in in Hc. simpl in Hc. split; intros Hin.
  - destruct (Map_get t (build_tagCounts document)) as [n |].
    + now rewrite Hc.
    + exfalso. now apply Hn.
  - now apply Hn.
Qed.

Lemma build_tagCounts_NoDup (document : Document) :
  NoDup (Map_keys (build_tagCounts document)).
Proof. rewrite build_tagCounts_keys. apply Set_from_NoDup. Qed.

Lemma build_tagCounts_In (document : Document) (t : string) (n : Z) :
  In (t, n) (build_tagCounts document) <->
  In t (visited_tags document) /\ n = occurrences t (visited_tags document).
Proof.
  destruct (build_tagCounts_get document t) as [Hin Hout]. split.
  - intros H. pose proof H as Hk.
    apply (in_map fst) in Hk. fold (Map_keys (build_tagCounts document)) in Hk.
    rewrite build_tagCounts_keys, Set_from_In in Hk. simpl in Hk.
    split; [exact Hk |].
    apply Map_get_In in H; [| apply build_tagCounts_NoDup].
    rewrite (Hin Hk) in H. congruence.
  - intros [Ht ->]. apply Map_get_Some_In. now apply Hin.
Qed.

Lemma build_tagCounts_sum (document : Document) :
  sum_Z (Map_values (build_tagCounts document))
  = Z.of_nat (List.length (bodyElements document)).
Proof.
  unfold build_tagCounts.
  enough (H : forall els m,
             sum_Z (Map_values (fold_left count_tag els m))
             = sum_Z (Map_values m) + Z.of_nat (List.length els))
    by (rewrite H; reflexivity).
  induction els as [| el els IH]; intros m; simpl List.length;
    [simpl; lia |].
  cbn [fold_left]. rewrite IH. unfold count_tag.
  pose proof (Map_set_sum (fun n => n) (tagName el)
                (match Map_get (tagName el) m with
                 | Some n => (if n =? 0 then 0 else n) + 1
                 | None => 0 + 1
                 end) m) as Hs.
  rewrite !map_id in Hs. rewrite Hs.
  destruct (Map_get (tagName el) m) as [n |];
    [destruct (Z.eqb_spec n 0) |]; lia.
Qed.

(** The array sorted by count: larger counts first, equal counts in
    the order in which the labels were first seen. *)
Lemma sortedByCount_order (document : Document) :
  StronglySorted (frequency_order (visited_tags document))
                 (sortedByCount document).
Proof.
  unfold sortedByCount.
  apply StronglySorted_weaken
    with (R := stable_order (fun a b : string * Z => snd b - snd a)
                 (first_seen_order (visited_tags document))).
  - intros a b _ _ [Hle Hb]. unfold frequency_order.
    destruct (Z.eq_dec (snd a) (snd b)) as [E | E]; [right | left; lia].
    split; [exact E | apply Hb; lia].
  - apply Array_sort_by_stable; try (intros; lia).
    apply StronglySorted_map_inv with (f := fst)
      (R := fun a b => (first_seen a (visited_tags document)
                        < first_seen b (visited_tags document))%nat).
    fold (Map_keys (build_tagCounts document)).
    rewrite build_tagCounts_keys. apply Set_from_first_seen.
Qed.

Lemma sortedByCount_In (document : Document) (t : string) (n : Z) :
  In (t, n) (sortedByCount document) <->
  In t (visited_tags document) /\ n = occurrences t (visited_tags document).
Proof.
  unfold sortedByCount. rewrite Array_sort_by_In.
  apply build_tagCounts_In.
Qed.

Lemma sortedByCount_NoDup (document : Document) :
  NoDup (Map_keys (sortedByCount document)).
Proof.
  unfold Map_keys, sortedByCount.
  eapply Permutation_NoDup; [| apply build_tagCounts_NoDup].
  apply Permutation_map. symmetry. apply Array_sort_by_Permutation.
Qed.

Lemma frequency_order_entry (document : Document) (a : string * Z) :
  In a (sortedByCount document) ->
  In (fst a) (visited_tags document) /\
  snd a = occurrences (fst a) (visited_tags document).
Proof. destruct a as [t n]. apply sortedByCount_In. Qed.

Lemma sortedByCount_nonempty (document : Document) :
  (exists e, BodyDescendant document e) -> sortedByCount document <> [].
Proof.
  intros [e He] Hnil. apply bodyElements_spec in He.
  assert (Ht : In (tagName e) (visited_tags document))
    by (unfold visited_tags; now apply in_map).
  assert (Hin : In (tagName e,
                    occurrences (tagName e) (visited_tags document))
                   (sortedByCount document))
    by (apply sortedByCount_In; now split).
  rewrite Hnil in Hin. destruct Hin.
Qed.

(** C4, as the script has it. When there is at least one element below
    the body, [mostCommon] is the label with the largest count, the one
    seen first among those that share it, and [leastCommon] is the
    label with the smallest count, the one whose first occurrence comes
    last among those that share it. *)
Theorem most_and_least_common (document : Document) :
  (exists e, BodyDescendant document e) ->
  exists most least,
    mostCommon (analyzeDomStructure document) = Some most /\
    leastCommon (analyzeDomStructure document) = Some least /\
    MostFrequentFirstSeen (visited_tags document) most /\
    LeastFrequentLastSeen (visited_tags document) least.
Proof.
  intros Hne. apply sortedByCount_nonempty in Hne.
  pose proof (sortedByCount_order document) as Hs.
  pose proof (frequency_order_entry document) as He.
  pose proof (sortedByCount_In document) as Hin.
  cbn [analyzeDomStructure mostCommon leastCommon].
  set (tags := visited_tags document) in *.
  destruct (sortedByCount document) as [| most rest] eqn:E;
    [contradiction |].
  destruct (snoc_cases (most :: rest)) as [Hnil | [init [least Hl]]];
    [discriminate |].
  exists most, least. split; [reflexivity |]. split.
  { rewrite Hl, map_app. apply last_snoc. }
  split.
  - destruct (He most (or_introl eq_refl)) as [Hm1 Hm2].
    split; [exact Hm1 |]. split; [exact Hm2 |].
    intros t Ht.
    assert (Hent : In (t, occurrences t tags) (most :: rest))
      by (apply Hin; now split).
    apply StronglySorted_inv in Hs. destruct Hs as [_ Hall].
    rewrite Forall_forall in Hall.
    destruct Hent as [Em | Hr];
      [rewrite Em; simpl; split; [lia | intros _; lia] |].
    destruct (Hall _ Hr) as [Hlt | [Heq Hfs]]; simpl in *.
    + split; lia.
    + split; [lia | intros _; lia].
  - rewrite Hl in Hs, He, Hin.
    assert (Hll : In least (init ++ [least]))
      by (apply in_or_app; right; now left).
    destruct (He least Hll) as [Hm1 Hm2].
    split; [exact Hm1 |]. split; [exact Hm2 |].
    intros t Ht.
    assert (Hent : In (t, occurrences t tags) (init ++ [least]))
      by (apply Hin; now split).
    apply in_app_or in Hent. destruct Hent as [Hi | [El | []]].
    + destruct (StronglySorted_last _ _ _ Hs _ Hi) as [Hlt | [Heq Hfs]];
        simpl in *.
      * split; lia.
      * split; [lia | intros _; lia].
    + rewrite El. simpl. split; [lia | intros _; lia].
Qed.

Lemma most_and_least_common_witness :
  exists most least,
    mostCommon (analyzeDomStructure doc_div_p) = Some most /\
    leastCommon (analyzeDomStructure doc_div_p) = Some least /\
    MostFrequentFirstSeen (visited_tags doc_div_p) most /\
    LeastFrequentLastSeen (visited_tags doc_div_p) least.
Proof.
  apply (most_and_least_common doc_div_p).
  exists (leaf "DIV"), (node "BODY" [leaf "DIV"; leaf "P"]).
  split; [reflexivity |]. apply Descendant_child. simpl. now left.
Defined.

(** C4, as stated, fails on [<body><div></div><p></p></body>]: both
    labels occur once, [DIV] is seen first, and [leastCommon] is [P]. *)
Lemma least_common_not_first_seen :
  ~ (exists most least,
       mostCommon (analyzeDomStructure doc_div_p) = Some most /\
       leastCommon (analyzeDomStructure doc_div_p) = Some least /\
       MostFrequentFirstSeen (visited_tags doc_div_p) most /\
       LeastFrequentFirstSeen (visited_tags doc_div_p) least).
Proof.
  intros (most & least & _ & Hl & _ & _ & _ & Hall).
  injection Hl as <-.
  destruct (Hall "DIV" (or_introl eq_refl)) as [_ Hfs].
  specialize (Hfs eq_refl). simpl in Hfs. lia.
Qed.

(** C5, as the script has it. [elementFrequency] maps each label met to
    the number of elements that carry it and holds no other key; when
    no label is an array index (no element name is), its entries are
    enumerated by decreasing count, labels with the same count in the
    order in which they were first seen. *)
Theorem elementFrequency_table (document : Document) :
  let tags := visited_tags document in
  let table := elementFrequency (analyzeDomStructure document) in
  (forall t, In t tags -> Map_get t table = Some (occurrences t tags)) /\
  (forall t, ~ In t tags -> Map_get t table = None) /\
  NoDup (Map_keys table) /\
  (Forall (fun t => is_array_index t = false) tags ->
   StronglySorted (frequency_order tags) (Object_entries table)).
Proof.
  intros tags table.
  assert (Ht : table = sortedByCount document)
    by apply Object_fromEntries_distinct, sortedByCount_NoDup.
  rewrite Ht. repeat split.
  - intros t Hin. apply Map_get_In; [apply sortedByCount_NoDup |].
    apply sortedByCount_In. now split.
  - intros t Hout. apply Map_get_None. intros Hk.
    apply in_map_iff in Hk. destruct Hk as [[t' n] [<- Hk]].
    apply sortedByCount_In in Hk. now apply Hout.
  - apply sortedByCount_NoDup.
  - intros Hidx. rewrite Object_entries_no_index;
      [apply sortedByCount_order |].
    apply Forall_forall. intros k Hk. apply in_map_iff in Hk.
    destruct Hk as [[t' n] [<- Hk]]. apply sortedByCount_In in Hk.
    rewrite Forall_forall in Hidx. now apply Hidx.
Qed.

Lemma elementFrequency_table_witness :
  StronglySorted (frequency_order (visited_tags doc_p_div_div))
    (Object_entries (elementFrequency (analyzeDomStructure doc_p_div_div))).
Proof.
  apply (elementFrequency_table doc_p_div_div).
  repeat constructor.
Defined.

(** C5, as stated, fails on [<body><p></p><div></div><div></div></body>]:
    [P] is seen first, and the table lists [DIV] before [P]. *)
Lemma elementFrequency_not_first_seen_order :
  ~ StronglySorted (first_seen_order (visited_tags doc_p_div_div))
      (Object_entries (elementFrequency (analyzeDomStructure doc_p_div_div))).
Proof.
  intros H. apply StronglySorted_inv in H. destruct H as [_ H].
  apply Forall_inv in H. unfold first_seen_order in H. simpl in H. lia.
Qed.

(* ================================================================== *)
(** ** Option 3: the metadata map *)
(* ================================================================== *)



Lemma Set_add_idem (s : list string) (x : string) :
  Set_add (Set_add s x) x = Set_add s x.
Proof.
  unfold Set_add at 1. replace (Set_has (Set_add s x) x) with true;
    [reflexivity |].
  symmetry. apply Set_has_In. unfold Set_add.
  destruct (Set_has s x) eqn:E; [now apply Set_has_In |].
  apply in_or_app. right. now left.
Qed.

Lemma Map_get_app {V : Type} (k : string) (m1 m2 : list (string * V)) :
  Map_get k (m1 ++ m2)
  = match Map_get k m1 with
    | Some v => Some v
    | None => Map_get k m2
    end.
Proof.
  induction m1 as [| [k' v'] m1 IH]; simpl; [reflexivity |].
  now destruct (String.eqb k k').
Qed.

(** A map with distinct keys is given by its keys and its lookups. *)
Lemma Map_from_keys {V : Type} (d : V) (m : list (string * V)) :
  NoDup (Map_keys m) ->
  m = map (fun k => (k, match Map_get k m with Some v => v | None => d end))
          (Map_keys m).
Proof.
  induction m as [| [k v] m IH]; [reflexivity |].
  cbn [Map_keys map fst]. intros Hnd. apply NoDup_cons_iff in Hnd.
  destruct Hnd as [Hk Hnd]. cbn [Map_get]. rewrite String.eqb_refl.
  f_equal. rewrite (IH Hnd) at 1. apply map_ext_in. intros k' Hk'.
  destruct (String.eqb_spec k' k) as [-> | _]; [contradiction |].
  reflexivity.
Qed.

(** The snapshot object built by the [reduce]: which names it has. *)
Lemma assigned_keys (attrs : list (string * string)) :
  forall o,
    Map_keys (fold_left
                (fun acc attr => Object_assign acc (fst attr) (snd attr))
                attrs o)
    = fold_left Set_add
        (filter (fun name => negb (String.eqb name "__proto__"))
                (map fst attrs))
        (Map_keys o).
Proof.
  induction attrs as [| [k v] attrs IH]; intros o;
    cbn [fold_left map filter fst snd]; [reflexivity |].
  rewrite IH. unfold Object_assign.
  destruct (String.eqb k "__proto__"); cbn [negb fold_left];
    [reflexivity |].
  now rewrite Map_keys_set.
Qed.

(** The snapshot object built by the [reduce]: what a name holds. *)
Lemma assigned_get (name : string) (attrs : list (string * string)) :
  forall o,
    Map_get name
      (fold_left (fun acc attr => Object_assign acc (fst attr) (snd attr))
                 attrs o)
    = if String.eqb name "__proto__" then Map_get name o
      else match Map_get name (rev attrs) with
           | Some v => Some v
           | None => Map_get name o
           end.
Proof.
  induction attrs as [| [k v] attrs IH]; intros o;
    cbn [fold_left rev fst snd].
  - now destruct (String.eqb name "__proto__").
  - rewrite IH, Map_get_app. cbn [Map_get]. unfold Object_assign.
    destruct (String.eqb_spec name "__proto__") as [-> | Hn].
    + destruct (String.eqb_spec k "__proto__") as [_ | Hk];
        [reflexivity |].
      rewrite Map_get_set.
      destruct (String.eqb_spec "__proto__" k) as [E | _];
        [symmetry in E; contradiction | reflexivity].
    + destruct (Map_get name (rev attrs)); [reflexivity |].
      destruct (String.eqb_spec k "__proto__") as [-> | Hk].
      * destruct (String.eqb_spec name "__proto__");
          [contradiction | reflexivity].
      * rewrite Map_get_set. now destruct (String.eqb name k).
Qed.

(** The object the [reduce] builds is the attribute snapshot. *)
Lemma assigned_is_snapshot (e : Element) :
  fold_left (fun acc attr => Object_assign acc (fst attr) (snd attr))
            (attributes e) []
  = attribute_snapshot e.
Proof.
  set (o := fold_left _ (attributes e) []).
  assert (Hk : Map_keys o = snapshot_names e)
    by (unfold o; now rewrite assigned_keys).
  assert (Hnd : NoDup (Map_keys o))
    by (rewrite Hk; apply Set_from_NoDup).
  rewrite (Map_from_keys EmptyString o Hnd), Hk.
  unfold attribute_snapshot. apply map_ext_in. intros name Hin.
  unfold snapshot_names in Hin. rewrite Set_from_In in Hin.
  apply filter_In in Hin. destruct Hin as [_ Hn].
  unfold o. rewrite assigned_get. unfold last_attribute.
  destruct (String.eqb name "__proto__"); [discriminate |].
  now destruct (Map_get name (rev (attributes e))).
Qed.

Lemma record_element_get (elementMap : list (string * TagMetadata))
  (element : Element) (k : string) :
  Map_get k (record_element elementMap element)
  = if String.eqb k (tagName element)
    then Some (increment_count
                 match Map_get (tagName element) elementMap with
                 | Some r => r
                 | None => fresh_metadata element
                 end)
    else Map_get k elementMap.
Proof.
  unfold record_element, Map_has.
  destruct (Map_get (tagName element) elementMap) as [r |] eqn:G; simpl.
  - rewrite G. apply Map_get_set.
  - rewrite Map_get_set, String.eqb_refl, !Map_get_set.
    now destruct (String.eqb k (tagName element)).
Qed.

Lemma record_element_keys (elementMap : list (string * TagMetadata))
  (element : Element) :
  Map_keys (record_element elementMap element)
  = Set_add (Map_keys elementMap) (tagName element).
Proof.
  unfold record_element, Map_has.
  destruct (Map_get (tagName element) elementMap) as [r |] eqn:G; simpl.
  - rewrite G. apply Map_keys_set.
  - rewrite Map_get_set, String.eqb_refl, !Map_keys_set.
    apply Set_add_idem.
Qed.

Lemma record_element_sum (elementMap : list (string * TagMetadata))
  (element : Element) :
  sum_Z (map count (Map_values (record_element elementMap element)))
  = sum_Z (map count (Map_values elementMap)) + 1.
Proof.
  unfold record_element, Map_has.
  destruct (Map_get (tagName element) elementMap) as [r |] eqn:G; simpl.
  - rewrite G, Map_set_sum, G. simpl. lia.
  - rewrite Map_get_set, String.eqb_refl, !Map_set_sum, G.
    rewrite Map_get_set, String.eqb_refl. simpl. lia.
Qed.

Lemma elementMap_keys_from (els : list Element) :
  forall elementMap,
    Map_keys (fold_left record_element els elementMap)
    = fold_left Set_add (map tagName els) (Map_keys elementMap).
Proof.
  induction els as [| el els IH]; intros m; simpl; [reflexivity |].
  now rewrite IH, record_element_keys.
Qed.

Lemma build_elementMap_keys (document : Document) :
  Map_keys (build_elementMap document) = Set_from (visited_tags document).
Proof. apply elementMap_keys_from. Qed.

Lemma build_elementMap_sum (document : Document) :
  sum_Z (map count (Map_values (build_elementMap document)))
  = Z.of_nat (List.length (bodyElements document)).
Proof.
  unfold build_elementMap.
  enough (H : forall els m,
             sum_Z (map count (Map_values (fold_left record_element els m)))
             = sum_Z (map count (Map_values m))
               + Z.of_nat (List.length els))
    by (rewrite H; reflexivity).
  induction els as [| el els IH]; intros m; simpl List.length;
    [simpl; lia |].
  cbn [fold_left]. rewrite IH, record_element_sum. lia.
Qed.

Lemma first_instance_of_snoc (t : string) (els : list Element)
  (e : Element) :
  first_instance_of t (els ++ [e])
  = match first_instance_of t els with
    | Some x => Some x
    | None => if String.eqb (tagName e) t then Some e else None
    end.
Proof.
  unfold first_instance_of.
  induction els as [| x els IH]; simpl; [reflexivity |].
  now destruct (String.eqb (tagName x) t).
Qed.

Lemma first_instance_of_None (t : string) (els : list Element) :
  ~ In t (map tagName els) -> first_instance_of t els = None.
Proof.
  unfold first_instance_of.
  induction els as [| x els IH]; simpl; [reflexivity |].
  intros Hn. destruct (String.eqb_spec (tagName x) t) as [E | _];
    [tauto |].
  apply IH. tauto.
Qed.

Lemma occurrences_snoc (t x : string) (tags : list string) :
  occurrences t (tags ++ [x])
  = occurrences t tags + (if String.eqb x t then 1 else 0).
Proof. induction tags as [| y tags IH]; simpl; [| rewrite IH]; lia. Qed.

Lemma occurrences_not_In (t : string) (tags : list string) :
  ~ In t tags -> occurrences t tags = 0.
Proof.
  intros Hn. pose proof (occurrences_nonneg t tags).
  rewrite occurrences_In in Hn. lia.
Qed.

(** Every record of the map is the record of its key. *)
Lemma elementMap_get (els : list Element) :
  forall k r,
    Map_get k (fold_left record_element els []) = Some r ->
    metadata_of els k = Some r.
Proof.
  induction els as [| e els IH] using rev_ind; intros k r;
    [discriminate |].
  rewrite fold_left_app. cbn [fold_left].
  set (m := fold_left record_element els []) in *.
  rewrite record_element_get. unfold metadata_of.
  rewrite first_instance_of_snoc, map_app. cbn [map].
  rewrite occurrences_snoc.
  destruct (String.eqb_spec k (tagName e)) as [-> | Hne].
  - rewrite String.eqb_refl.
    destruct (Map_get (tagName e) m) as [r0 |] eqn:G; intros [= <-].
    + apply IH in G. unfold metadata_of in G.
      destruct (first_instance_of (tagName e) els) as [x |];
        [| discriminate].
      injection G as <-. reflexivity.
    + apply Map_get_None in G.
      assert (Hk : Map_keys m = Set_from (map tagName els))
        by apply elementMap_keys_from.
      rewrite Hk, Set_from_In in G.
      rewrite first_instance_of_None, occurrences_not_In by assumption.
      rewrite <- assigned_is_snapshot. reflexivity.
  - intros G. apply IH in G. unfold metadata_of in G.
    destruct (first_instance_of k els) as [x |]; [| discriminate].
    destruct (String.eqb_spec (tagName e) k) as [E | _];
      [symmetry in E; contradiction |].
    rewrite Z.add_0_r. exact G.
Qed.

Lemma build_elementMap_NoDup (document : Document) :
  NoDup (Map_keys (build_elementMap document)).
Proof. rewrite build_elementMap_keys. apply Set_from_NoDup. Qed.

Lemma build_elementMap_entry (document : Document) (k : string)
  (r : TagMetadata) :
  In (k, r) (build_elementMap document) ->
  metadata_of (bodyElements document) k = Some r /\ md_tagName r = k.
Proof.
  intros Hin. apply Map_get_In in Hin; [| apply build_elementMap_NoDup].
  apply elementMap_get in Hin. split; [exact Hin |].
  unfold metadata_of in Hin.
  destruct (first_instance_of k (bodyElements document));
    [| discriminate].
  now injection Hin as <-.
Qed.


(** C6. [totalElements] is the sum of the counts of the frequency
    table, the sum of the counts of the metadata records, and the
    number of elements below the body. *)
Theorem totalElements_sums (localeCompare : string -> string -> Z)
  (document : Document) :
  let total := totalElements (analyzeDomStructure document) in
  total = sum_Z (Map_values (build_tagCounts document)) /\
  total = sum_Z (Map_values (elementFrequency (analyzeDomStructure document))) /\
  (exists records,
     getUniqueDomElementsWithMetadata localeCompare document true
     = Metadata records /\
     total = sum_Z (map count records)) /\
  total = match body document with
          | Some b => descendant_count b
          | None => 0
          end.
Proof.
  cbn [analyzeDomStructure totalElements elementFrequency].
  rewrite Object_fromEntries_distinct by apply sortedByCount_NoDup.
  repeat split.
  - symmetry. apply build_tagCounts_sum.
  - rewrite <- build_tagCounts_sum. apply sum_Z_Permutation.
    unfold Map_values, sortedByCount. apply Permutation_map.
    symmetry. apply Array_sort_by_Permutation.
  - eexists. split; [reflexivity |].
    rewrite <- build_elementMap_sum. apply sum_Z_Permutation.
    apply Permutation_map. symmetry. apply Array_sort_by_Permutation.
  - unfold bodyElements. destruct (body document) as [b |];
      [apply querySelectorAll_length | reflexivity].
Qed.

(* ================================================================== *)
(** ** Option 3: [getUniqueDomElementsWithMetadata] *)
(* ================================================================== *)



(* ================================================================== *)
(** ** Option 2: [toLowerCase] *)
(* ================================================================== *)



Lemma Set_from_map_injective (f : string -> string) (l : list string) :
  (forall x y, In x l -> In y l -> f x = f y -> x = y) ->
  Set_from (map f l) = map f (Set_from l).
Proof.
  induction l as [| x l IH] using rev_ind; intros Hinj; [reflexivity |].
  rewrite map_app. cbn [map]. rewrite !Set_from_snoc.
  rewrite IH by (intros a b Ha Hb; apply Hinj; apply in_or_app; now left).
  unfold Set_add.
  assert (Hhas : Set_has (map f (Set_from l)) (f x)
                 = Set_has (Set_from l) x).
  { destruct (Set_has (Set_from l) x) eqn:E.
    - apply Set_has_In. apply Set_has_In in E. now apply in_map.
    - apply Set_has_not_In. apply Set_has_not_In in E.
      intros Hin. apply E. apply in_map_iff in Hin.
      destruct Hin as [y [Hxy Hy]].
      rewrite Set_from_In in Hy.
      rewrite (Hinj x y); [now apply Set_from_In | | | now symmetry];
        apply in_or_app; [right; now left | now left]. }
  rewrite Hhas. destruct (Set_has (Set_from l) x); [reflexivity |].
  now rewrite map_app.
Qed.

Lemma lowercase_tagNames (els : list Element) :
  map (fun el => JS.toLowerCase (tagName el)) els
  = map JS.toLowerCase (map tagName els).
Proof. now rewrite map_map. Qed.

(** The two listings, before the optional sort. *)
Lemma lowercase_unique (tags : list string) :
  (forall l, In l (Set_from (map JS.toLowerCase tags)) <->
             exists u, In u (Set_from tags) /\ l = JS.toLowerCase u) /\
  (CaseDistinct (Set_from tags) ->
   Set_from (map JS.toLowerCase tags)
   = map JS.toLowerCase (Set_from tags)).
Proof.
  split.
  - intros l. rewrite Set_from_In, in_map_iff. split.
    + intros [u [<- Hu]]. exists u. now rewrite Set_from_In.
    + intros [u [Hu ->]]. exists u. now rewrite Set_from_In in Hu.
  - intros Hd. apply Set_from_map_injective.
    intros x y Hx Hy. apply Hd; now apply Set_from_In.
Qed.

Lemma lowercase_sorted (tags : list string) :
  let lower := Array_sort (Set_from (map JS.toLowerCase tags)) in
  let upper := Array_sort (Set_from tags) in
  NoDup lower /\ NoDup upper /\
  (forall l, In l lower <-> exists u, In u upper /\ l = JS.toLowerCase u) /\
  (CaseDistinct upper -> Permutation lower (map JS.toLowerCase upper)).
Proof.
  destruct (lowercase_unique tags) as [Hmem Heq]. unfold Array_sort.
  split; [| split; [| split]].
  - eapply Permutation_NoDup; [| apply Set_from_NoDup].
    symmetry. apply Array_sort_by_Permutation.
  - eapply Permutation_NoDup; [| apply Set_from_NoDup].
    symmetry. apply Array_sort_by_Permutation.
  - intros l. rewrite Array_sort_by_In, Hmem.
    split; intros [u [Hin ->]]; exists u; (split; [| reflexivity]).
    + now rewrite Array_sort_by_In.
    + now rewrite Array_sort_by_In in Hin.
  - intros Hd. rewrite !Array_sort_by_Permutation, Heq; [reflexivity |].
    intros u u' Hin Hin'. apply Hd; now rewrite Array_sort_by_In.
Qed.

Lemma lowercase_unsorted (tags : list string) :
  let lower := Set_from (map JS.toLowerCase tags) in
  let upper := Set_from tags in
  NoDup lower /\ NoDup upper /\
  (forall l, In l lower <-> exists u, In u upper /\ l = JS.toLowerCase u) /\
  (CaseDistinct upper -> lower = map JS.toLowerCase upper).
Proof.
  destruct (lowercase_unique tags) as [Hmem Heq].
  repeat split; try apply Set_from_NoDup; try apply Hmem; assumption.
Qed.

Lemma map_snoc {A B : Type} (f : A -> B) (l : list A) (x : A) :
  map f l ++ [f x] = map f (l ++ [x]).
Proof. now rewrite map_app. Qed.

(** C8, as the script has it. With the same container, the same
    [includeContainer] and the same [sortResults], the call with
    [toLowerCase: true] and the call with [toLowerCase: false] throw
    the same error or both return.  The lowercase list has no
    duplicates and holds exactly the lowercase forms of the labels of
    the other list.  When no two labels of the other list share their
    lowercase form, the lowercase list is a rearrangement of the
    lowercased other list, and the very same list when the results are
    not sorted. *)
Theorem toLowerCase_results (document : Document)
  (container : option Value) (includeContainer sortResults : option bool) :
  match getUniqueDomElementsRobust document
          (Some (mkOptions container includeContainer (Some true)
                           sortResults)),
        getUniqueDomElementsRobust document
          (Some (mkOptions container includeContainer (Some false)
                           sortResults))
  with
  | Return lower, Return upper =>
      NoDup lower /\ NoDup upper /\
      (forall l, In l lower <->
                 exists u, In u upper /\ l = JS.toLowerCase u) /\
      (CaseDistinct upper ->
       Permutation lower (map JS.toLowerCase upper) /\
       (sortResults = Some false -> lower = map JS.toLowerCase upper))
  | Throw e1, Throw e2 => e1 = e2
  | _, _ => False
  end.
Proof.
  unfold getUniqueDomElementsRobust. cbn [opt_container opt_toLowerCase
    opt_includeContainer opt_sortResults].
  destruct (ToBoolean (container_or_default container
                         (body_value document))); cbn [negb];
    [| reflexivity].
  destruct (container_or_default container (body_value document))
    as [| | b | n | s | c]; try reflexivity.
  cbn [flag_or_default].
  change (fun el : Element => tagName el) with tagName.
  rewrite lowercase_tagNames, map_snoc.
  destruct (flag_or_default includeContainer false);
    destruct sortResults as [[|] |]; cbn [flag_or_default];
    match goal with
    | |- context [Array_sort (Set_from (map JS.toLowerCase ?tags))] =>
        destruct (lowercase_sorted tags) as (H1 & H2 & H3 & H4);
        repeat split; try assumption; try apply H3; try discriminate;
        now apply H4
    | |- context [Set_from (map JS.toLowerCase ?tags)] =>
        destruct (lowercase_unsorted tags) as (H1 & H2 & H3 & H4);
        repeat split; try assumption; try apply H3;
        rewrite H4 by assumption; reflexivity
    end.
Qed.

Lemma toLowerCase_results_witness :
  Permutation ["div"; "p"; "span"]
              (map JS.toLowerCase ["DIV"; "P"; "SPAN"]).
Proof.
  pose proof (toLowerCase_results doc_div_span_p None None None) as H.
  simpl in H. destruct H as (_ & _ & _ & H). apply H.
  intros u u' Hu Hu' E. simpl in Hu, Hu'.
  destruct Hu as [<- | [<- | [<- | []]]];
    destruct Hu' as [<- | [<- | [<- | []]]];
    try reflexivity; discriminate E.
Defined.

(** Sorting can change the positions: [AB] comes before [A_], and
    [a_] before [ab]. *)
Example toLowerCase_sorted_positions :
  let document :=
    mkDocument (Some (node "BODY" [leaf "AB"; leaf "A_"])) in
  getUniqueDomElementsRobust document
    (Some (mkOptions None None (Some false) None))
  = Return ["AB"; "A_"] /\
  getUniqueDomElementsRobust document
    (Some (mkOptions None None (Some true) None))
  = Return ["a_"; "ab"].
Proof. split; reflexivity. Qed.

(** C8, as stated, fails on [<body><a></a><svg><a></a></svg></body>]:
    the list in original case is [A], [a], [svg], the lowercase list is
    [a], [svg]. *)
Lemma toLowerCase_not_bijective :
  ~ LowerCaseBijection doc_html_svg_a None None None.
Proof.
  unfold LowerCaseBijection. simpl. intros H.
  apply Permutation_length in H. discriminate H.
Qed.

(* ================================================================== *)
(** ** Scenarios *)
(* ================================================================== *)

(** A body with one [DIV] holding one [SPAN], and one sibling [P]. *)
Example scenario_div_span_p :
  getUniqueDomElements doc_div_span_p = ["DIV"; "P"; "SPAN"] /\
  analyzeDomStructure doc_div_span_p
  = {| totalElements := 3;
       uniqueElements := 3;
       mostCommon := Some ("DIV", 1);
       leastCommon := Some ("P", 1);
       elementFrequency := [("DIV", 1); ("SPAN", 1); ("P", 1)];
       deepestNesting := 2 |}.
Proof. split; reflexivity. Qed.

(** An attribute called [__proto__] leaves no property in the
    snapshot, and an attribute whose name is an array index is
    enumerated first. *)
Example scenario_snapshot_names :
  let first :=
    mkElement "DIV" [("__proto__", "x"); ("id", "a"); ("0", "z")] [] [] in
  exists r,
    getUniqueDomElementsWithMetadata SortCompare
      (mkDocument (Some (node "BODY" [first]))) true
    = Metadata [r] /\
    Map_get "__proto__" (firstInstanceAttributes r) = None /\
    firstInstanceAttributes r = attribute_snapshot first /\
    Object_entries (firstInstanceAttributes r) = [("0", "z"); ("id", "a")].
Proof. eexists. repeat split. Qed.

(** Two [DIV]s, the first of class [a], the second of class [b]: the
    record of [DIV] counts both and keeps the classes of the first. *)
Example scenario_first_instance_classes :
  let first := mkElement "DIV" [("class", "a")] ["a"] [] in
  let second := mkElement "DIV" [("class", "b")] ["b"] [] in
  getUniqueDomElementsWithMetadata SortCompare
    (mkDocument (Some (node "BODY" [first; second]))) true
  = Metadata [mkTagMetadata "DIV" 2 first [("class", "a")] ["a"]].
Proof. reflexivity. Qed.


(* ================================================================== *)
(** ** The legacy script: [findIndex], the uniqueness filter, the loop *)
(* ================================================================== *)

Lemma StronglySorted_middle {A : Type} (R : A -> A -> Prop)
  (pre post : list A) (x : A) :
  StronglySorted R (pre ++ x :: post) ->
  (forall a, In a pre -> R a x) /\ (forall b, In b post -> R x b).
Proof.
  induction pre as [| y pre IH]; simpl; intros Hs;
    apply StronglySorted_inv in Hs; destruct Hs as [Hs Hall];
    rewrite Forall_forall in Hall.
  - split; [intros a [] | exact Hall].
  - destruct (IH Hs) as [Hpre Hpost]. split; [| exact Hpost].
    intros a [<- | Ha]; [| now apply Hpre].
    apply Hall, in_or_app. right. now left.
Qed.

Lemma findIndex_loop_spec {A : Type} (predicate : A -> Z -> bool)
  (l : list A) :
  forall i,
    (Legacy.findIndex_loop predicate l i = -1 /\
     forall k x, nth_error l k = Some x ->
                 predicate x (i + Z.of_nat k) = false) \/
    (exists k x,
       Legacy.findIndex_loop predicate l i = i + Z.of_nat k /\
       nth_error l k = Some x /\
       predicate x (i + Z.of_nat k) = true /\
       forall j y, (j < k)%nat -> nth_error l j = Some y ->
                   predicate y (i + Z.of_nat j) = false).
Proof.
  induction l as [| v l IH]; intros i; cbn [Legacy.findIndex_loop].
  - left. split; [reflexivity |]. intros [| k] x; discriminate.
  - destruct (predicate v i) eqn:Hp.
    + right. exists O, v. rewrite Z.add_0_r.
      repeat split; try assumption. intros j y Hj. lia.
    + destruct (IH (i + 1)) as [[Hr Hall] | (k & x & Hr & Hx & Hpx & Hall)].
      * left. split; [exact Hr |]. intros [| k] x Hk.
        -- injection Hk as <-. now rewrite Z.add_0_r.
        -- replace (i + Z.of_nat (S k)) with (i + 1 + Z.of_nat k) by lia.
           now apply Hall.
      * right. exists (S k), x.
        replace (i + Z.of_nat (S k)) with (i + 1 + Z.of_nat k) by lia.
        repeat split; try assumption.
        intros [| j] y Hj Hy.
        -- injection Hy as <-. now rewrite Z.add_0_r.
        -- replace (i + Z.of_nat (S j)) with (i + 1 + Z.of_nat j) by lia.
           apply Hall; [lia | exact Hy].
Qed.

(** The [findIndex] polyfill throws a [TypeError] when the predicate is
    not a function.  Otherwise it returns [-1] when no value satisfies
    the predicate at its index, and else the first index whose value
    does: the value there satisfies it and no earlier one does. *)
Theorem findIndex_first_match {A : Type} (this : list A)
  (predicate : A -> Z -> bool) :
  Legacy.findIndex this None = Throw TypeError /\
  exists r,
    Legacy.findIndex this (Some predicate) = Return r /\
    ((r = -1 /\
      forall k x, nth_error this k = Some x ->
                  predicate x (Z.of_nat k) = false) \/
     (exists k x,
        r = Z.of_nat k /\ nth_error this k = Some x /\
        predicate x r = true /\
        forall j y, (j < k)%nat -> nth_error this j = Some y ->
                    predicate y (Z.of_nat j) = false)).
Proof.
  split; [reflexivity |]. eexists. split; [reflexivity |].
  destruct (findIndex_loop_spec predicate this 0)
    as [[Hr Hall] | (k & x & Hr & Hx & Hpx & Hall)].
  - left. split; [exact Hr |]. intros k x Hk. now apply (Hall k x).
  - right. exists k, x. rewrite Hr.
    split; [reflexivity |]. split; [exact Hx |].
    split; [exact Hpx | exact Hall].
Qed.

Lemma indexOf_from_In (item : string) (l r : list string) :
  forall i, In item l ->
            Legacy.indexOf_from item (l ++ r) i
            = Legacy.indexOf_from item l i /\
            i <= Legacy.indexOf_from item l i
               < i + Z.of_nat (List.length l).
Proof.
  induction l as [| x l IH]; intros i; [intros [] |].
  intros Hin. cbn [app Legacy.indexOf_from List.length].
  destruct (String.eqb_spec x item) as [_ | Hne]; [split; lia |].
  destruct Hin as [E | Hin]; [contradiction |].
  destruct (IH (i + 1) Hin) as [H1 H2]. split; [exact H1 | lia].
Qed.

Lemma indexOf_from_first (item : string) (l r : list string) :
  forall i, ~ In item l ->
            Legacy.indexOf_from item (l ++ item :: r) i
            = i + Z.of_nat (List.length l).
Proof.
  induction l as [| x l IH]; intros i Hn;
    cbn [app Legacy.indexOf_from List.length].
  - rewrite String.eqb_refl. lia.
  - destruct (String.eqb_spec x item) as [-> | _];
      [exfalso; apply Hn; now left |].
    rewrite IH by (intros H; apply Hn; now right). lia.
Qed.

Lemma filter_indexed_app {A : Type} (callback : A -> Z -> bool)
  (l1 l2 : list A) :
  forall index,
    Legacy.filter_indexed callback (l1 ++ l2) index
    = Legacy.filter_indexed callback l1 index
      ++ Legacy.filter_indexed callback l2
           (index + Z.of_nat (List.length l1)).
Proof.
  induction l1 as [| x l1 IH]; intros index;
    cbn [app Legacy.filter_indexed List.length].
  - now rewrite Z.add_0_r.
  - rewrite IH.
    replace (index + 1 + Z.of_nat (List.length l1))
      with (index + Z.of_nat (S (List.length l1))) by lia.
    now destruct (callback x index).
Qed.

Lemma uniqueness_filter_prefix (l : list string) :
  forall rest,
    Legacy.filter_indexed
      (fun item index => Legacy.indexOf item (l ++ rest) =? index) l 0
    = Set_from l.
Proof.
  induction l as [| x l IH] using rev_ind; intros rest; [reflexivity |].
  rewrite filter_indexed_app, <- app_assoc. cbn [app].
  rewrite IH, Set_from_snoc. cbn [Legacy.filter_indexed].
  unfold Set_add, Legacy.indexOf. rewrite Z.add_0_l.
  destruct (Set_has (Set_from l) x) eqn:E.
  - apply Set_has_In in E. rewrite Set_from_In in E.
    destruct (indexOf_from_In x l (x :: rest) 0 E) as [H1 H2].
    rewrite H1.
    destruct (Z.eqb_spec (Legacy.indexOf_from x l 0)
                         (Z.of_nat (List.length l))); [lia |].
    now rewrite app_nil_r.
  - apply Set_has_not_In in E. rewrite Set_from_In in E.
    rewrite indexOf_from_first by exact E.
    now rewrite Z.add_0_l, Z.eqb_refl.
Qed.

(** The legacy filter [array.indexOf(item) === index] keeps each name
    once, at its first occurrence: it computes what option 1 computes
    with [[...new Set(names)]]. *)
Theorem legacy_unique_is_Set (domElementNames : list string) :
  Legacy.uniqueDomElements domElementNames = Set_from domElementNames /\
  NoDup (Legacy.uniqueDomElements domElementNames) /\
  forall t, In t (Legacy.uniqueDomElements domElementNames)
            <-> In t domElementNames.
Proof.
  assert (H : Legacy.uniqueDomElements domElementNames
              = Set_from domElementNames).
  { unfold Legacy.uniqueDomElements.
    pose proof (uniqueness_filter_prefix domElementNames []) as Hp.
    now rewrite app_nil_r in Hp. }
  rewrite H. split; [reflexivity |].
  split; [apply Set_from_NoDup | intros t; apply Set_from_In].
Qed.

Lemma uniqueDomElements_Set_from (names : list string) :
  Legacy.uniqueDomElements names = Set_from names.
Proof.
  unfold Legacy.uniqueDomElements.
  pose proof (uniqueness_filter_prefix names []) as Hp.
  now rewrite app_nil_r in Hp.
Qed.

Lemma array_at_middle {A : Type} (pre suf : list A) (x : A) :
  Legacy.array_at (pre ++ x :: suf) (Z.of_nat (List.length pre)) = Some x.
Proof.
  unfold Legacy.array_at.
  destruct (Z.ltb_spec (Z.of_nat (List.length pre)) 0); [lia |].
  rewrite Nat2Z.id, nth_error_app2, Nat.sub_diag by lia. reflexivity.
Qed.

(** The loop started at the length of [pre] and run once per element
    of [suf] pushes the elements of [suf]. *)
Lemma push_loop_suffix (suf : list string) :
  forall pre acc,
    Legacy.push_loop (pre ++ suf) (Z.of_nat (List.length pre))
                     (List.length suf) acc
    = acc ++ map Some suf.
Proof.
  induction suf as [| x suf IH]; intros pre acc;
    cbn [List.length Legacy.push_loop map].
  - now rewrite app_nil_r.
  - rewrite array_at_middle.
    replace (pre ++ x :: suf) with ((pre ++ [x]) ++ suf)
      by (now rewrite <- app_assoc).
    replace (Z.of_nat (List.length pre) + 1)
      with (Z.of_nat (List.length (pre ++ [x])))
      by (rewrite length_app; simpl; lia).
    rewrite IH, <- app_assoc. reflexivity.
Qed.

Lemma findIndex_loop_absent (item : string) (l : list string) :
  forall i, ~ In item l ->
            Legacy.findIndex_loop (fun x (_ : Z) => String.eqb x item) l i
            = -1.
Proof.
  induction l as [| x l IH]; intros i Hn; cbn [Legacy.findIndex_loop];
    [reflexivity |].
  destruct (String.eqb_spec x item) as [-> | _];
    [exfalso; apply Hn; now left |].
  apply IH. intros H. apply Hn. now right.
Qed.

Lemma findIndex_loop_present (item : string) (pre post : list string) :
  forall i, ~ In item pre ->
            Legacy.findIndex_loop (fun x (_ : Z) => String.eqb x item)
                                  (pre ++ item :: post) i
            = i + Z.of_nat (List.length pre).
Proof.
  induction pre as [| x pre IH]; intros i Hn;
    cbn [app Legacy.findIndex_loop List.length].
  - rewrite String.eqb_refl. lia.
  - destruct (String.eqb_spec x item) as [-> | _];
      [exfalso; apply Hn; now left |].
    rewrite IH by (intros H; apply Hn; now right). lia.
Qed.

(** When the document has a [BODY] element, the legacy function
    returns [BODY] followed by the names whose first element comes
    after the first [BODY] element in tree order, each once.  A name
    met before [BODY] (in [head], say) is left out even when an element
    of the body carries it. *)
Theorem legacy_lists_names_first_seen_after_BODY
  (document : Legacy.FullDocument) :
  In "BODY" (all_names document) ->
  exists post,
    Legacy.getUniqueDomElements document
    = Return (Some "BODY" :: map Some post) /\
    NoDup ("BODY" :: post) /\
    forall t, In t post <->
              In t (all_names document) /\
              (first_seen "BODY" (all_names document)
               < first_seen t (all_names document))%nat.
Proof.
  intros Hbody. unfold Legacy.getUniqueDomElements.
  fold (all_names document). set (names := all_names document) in *.
  rewrite uniqueDomElements_Set_from.
  pose proof (Set_from_NoDup names) as Hnd.
  pose proof (Set_from_first_seen names) as Hs.
  pose proof (Set_from_In names) as Hin.
  apply Hin in Hbody. apply in_split in Hbody.
  destruct Hbody as [pre [post HU]]. rewrite HU in *.
  assert (Hpre : ~ In "BODY" pre).
  { apply NoDup_remove_2 in Hnd. intros H. apply Hnd, in_or_app.
    now left. }
  exists post. cbn [Legacy.findIndex].
  rewrite findIndex_loop_present by exact Hpre. rewrite Z.add_0_l.
  replace (Z.to_nat (Z.of_nat (List.length (pre ++ "BODY" :: post))
                     - Z.of_nat (List.length pre)))
    with (List.length ("BODY" :: post))
    by (rewrite length_app; simpl; lia).
  rewrite push_loop_suffix. split; [reflexivity |].
  split; [now apply NoDup_app_remove_l in Hnd |].
  destruct (StronglySorted_middle _ _ _ _ Hs) as [Hlow Hhigh].
  intros t. split.
  - intros Ht. split; [| now apply Hhigh].
    apply Hin, in_or_app. right. now right.
  - intros [Ht Hfs]. apply Hin in Ht. apply in_app_or in Ht.
    destruct Ht as [Ht | [<- | Ht]]; [| lia | exact Ht].
    apply Hlow in Ht. lia.
Qed.

Lemma legacy_lists_names_first_seen_after_BODY_witness :
  exists post,
    Legacy.getUniqueDomElements doc_html_head_body
    = Return (Some "BODY" :: map Some post) /\
    NoDup ("BODY" :: post) /\
    forall t, In t post <->
              In t (all_names doc_html_head_body) /\
              (first_seen "BODY" (all_names doc_html_head_body)
               < first_seen t (all_names doc_html_head_body))%nat.
Proof.
  apply (legacy_lists_names_first_seen_after_BODY doc_html_head_body).
  simpl. tauto.
Defined.

(** When no element of the document is called [BODY], [findIndex]
    gives [-1], the loop starts at index [-1], and the legacy function
    returns [undefined] followed by every name of the document, each
    once, in the order of the first occurrences. *)
Theorem legacy_without_BODY_starts_with_undefined
  (document : Legacy.FullDocument) :
  ~ In "BODY" (all_names document) ->
  Legacy.getUniqueDomElements document
  = Return (None :: map Some (Set_from (all_names document))).
Proof.
  intros Hn. unfold Legacy.getUniqueDomElements.
  fold (all_names document). set (names := all_names document) in *.
  rewrite uniqueDomElements_Set_from. cbn [Legacy.findIndex].
  rewrite findIndex_loop_absent by (now rewrite Set_from_In).
  replace (Z.to_nat (Z.of_nat (List.length (Set_from names)) - -1))
    with (S (List.length (Set_from names))) by lia.
  cbn [Legacy.push_loop]. unfold Legacy.array_at at 1. cbn [Z.ltb Z.compare].
  replace (-1 + 1) with (Z.of_nat (@List.length string [])) by reflexivity.
  f_equal. apply (push_loop_suffix (Set_from names) [] [None]).
Qed.

Lemma legacy_without_BODY_starts_with_undefined_witness :
  Legacy.getUniqueDomElements doc_svg
  = Return (None :: map Some (Set_from (all_names doc_svg))).
Proof.
  apply (legacy_without_BODY_starts_with_undefined doc_svg).
  simpl. intros [H | [H | []]]; discriminate H.
Defined.

(* ================================================================== *)
(** ** Option 2: what the listing holds and in which order *)
(* ================================================================== *)

Lemma Robust_on_element (document : Document) (c : Element)
  (includeContainer toLowerCase sortResults : option bool) :
  getUniqueDomElementsRobust document
    (Some (mkOptions (Some (VElement c)) includeContainer toLowerCase
                     sortResults))
  = Return
      (if flag_or_default sortResults true
       then Array_sort
              (Set_from (labelled_sequence c
                           (flag_or_default includeContainer false)
                           (flag_or_default toLowerCase false)))
       else Set_from (labelled_sequence c
                        (flag_or_default includeContainer false)
                        (flag_or_default toLowerCase false))).
Proof.
  unfold getUniqueDomElementsRobust, labelled_sequence.
  cbn [opt_container opt_toLowerCase opt_includeContainer opt_sortResults
       container_or_default ToBoolean negb].
  destruct (flag_or_default includeContainer false);
    destruct (flag_or_default toLowerCase false);
    rewrite ?app_nil_r; reflexivity.
Qed.

Lemma Descendant_trans (a b c : Element) :
  Descendant a b -> Descendant b c -> Descendant a c.
Proof.
  induction 1 as [a b Hb | a x b Hx _ IH]; intros Hc.
  - now apply Descendant_below with b.
  - apply Descendant_below with x; [exact Hx | now apply IH].
Qed.

Lemma labelled_sequence_In (c : Element) (includeContainer lower : bool)
  (t : string) :
  In t (labelled_sequence c includeContainer lower) <->
  exists e, (Descendant c e \/ (includeContainer = true /\ e = c)) /\
            t = label_of lower e.
Proof.
  unfold labelled_sequence. rewrite in_app_iff, in_map_iff. split.
  - intros [[e [<- He]] | Hc].
    + exists e. split; [left; now apply querySelectorAll_sound |
                        reflexivity].
    + destruct includeContainer; [| destruct Hc].
      destruct Hc as [<- | []]. exists c. split; [right |]; auto.
  - intros [e [[Hd | [-> ->]] ->]].
    + left. exists e. split; [reflexivity |].
      now apply querySelectorAll_complete.
    + right. now left.
Qed.

(** Called without argument on a document that has a body, option 2
    returns what option 1 returns; so does the call that names the body
    as container and leaves the flags out. *)
Theorem Robust_default_is_basic (document : Document) (b : Element) :
  body document = Some b ->
  getUniqueDomElementsRobust document None
  = Return (getUniqueDomElements document) /\
  getUniqueDomElementsRobust document
    (Some (mkOptions (Some (VElement b)) None None None))
  = Return (getUniqueDomElements document).
Proof.
  intros Hb.
  unfold getUniqueDomElementsRobust, getUniqueDomElements, bodyElements,
    body_value.
  cbn [no_options opt_container opt_toLowerCase opt_includeContainer
       opt_sortResults container_or_default flag_or_default].
  rewrite Hb. split; reflexivity.
Qed.

Lemma Robust_default_is_basic_witness :
  getUniqueDomElementsRobust doc_div_span_p None
  = Return (getUniqueDomElements doc_div_span_p).
Proof.
  apply (Robust_default_is_basic doc_div_span_p
           (node "BODY" [node "DIV" [leaf "SPAN"]; leaf "P"])).
  reflexivity.
Defined.

(** With an element as container, option 2 returns, whatever the
    document, a list without duplicates that holds exactly the labels
    (in the chosen case) of the elements below the container, and of
    the container itself when [includeContainer] is set. *)
Theorem Robust_labels (document : Document) (c : Element)
  (includeContainer toLowerCase sortResults : option bool) :
  exists labels,
    getUniqueDomElementsRobust document
      (Some (mkOptions (Some (VElement c)) includeContainer toLowerCase
                       sortResults))
    = Return labels /\
    NoDup labels /\
    forall t,
      In t labels <->
      exists e,
        (Descendant c e \/
         (flag_or_default includeContainer false = true /\ e = c)) /\
        t = label_of (flag_or_default toLowerCase false) e.
Proof.
  rewrite Robust_on_element. eexists. split; [reflexivity |].
  destruct (flag_or_default sortResults true); unfold Array_sort.
  - split.
    + eapply Permutation_NoDup; [| apply Set_from_NoDup].
      symmetry. apply Array_sort_by_Permutation.
    + intros t. rewrite Array_sort_by_In, Set_from_In.
      apply labelled_sequence_In.
  - split; [apply Set_from_NoDup |].
    intros t. rewrite Set_from_In. apply labelled_sequence_In.
Qed.

(** The order of the listing of option 2: strictly ascending by code
    unit unless [sortResults] is [false]; with [sortResults: false] the
    labels come in the order in which the traversal first meets them,
    the container's label last when it is included and new. *)
Theorem Robust_order (document : Document) (c : Element)
  (includeContainer toLowerCase sortResults : option bool) :
  exists labels,
    getUniqueDomElementsRobust document
      (Some (mkOptions (Some (VElement c)) includeContainer toLowerCase
                       sortResults))
    = Return labels /\
    (sortResults <> Some false -> StronglySorted label_lt labels) /\
    (sortResults = Some false ->
     let visited :=
       labelled_sequence c (flag_or_default includeContainer false)
                         (flag_or_default toLowerCase false) in
     StronglySorted
       (fun a b => (first_seen a visited < first_seen b visited)%nat)
       labels).
Proof.
  rewrite Robust_on_element. eexists. split; [reflexivity |].
  destruct sortResults as [[|] |]; cbn [flag_or_default]; split.
  - intros _. apply Array_sort_sorted, Set_from_NoDup.
  - discriminate.
  - intros H. now contradiction H.
  - intros _. apply Set_from_first_seen.
  - intros _. apply Array_sort_sorted, Set_from_NoDup.
  - discriminate.
Qed.

Lemma Robust_order_witness :
  (exists labels,
     getUniqueDomElementsRobust doc_no_body
       (Some (mkOptions
                (Some (VElement (node "MAIN" [leaf "P"; leaf "DIV"])))
                (Some true) None (Some false)))
     = Return labels /\
     StronglySorted
       (fun a b => (first_seen a ["P"; "DIV"; "MAIN"]
                    < first_seen b ["P"; "DIV"; "MAIN"])%nat)
       labels) /\
  (exists labels,
     getUniqueDomElementsRobust doc_no_body
       (Some (mkOptions
                (Some (VElement (node "MAIN" [leaf "P"; leaf "DIV"])))
                (Some true) None None))
     = Return labels /\
     StronglySorted label_lt labels).
Proof.
  split.
  - destruct (Robust_order doc_no_body (node "MAIN" [leaf "P"; leaf "DIV"])
                (Some true) None (Some false)) as (labels & Hr & _ & Hs).
    exists labels. split; [exact Hr | exact (Hs eq_refl)].
  - destruct (Robust_order doc_no_body (node "MAIN" [leaf "P"; leaf "DIV"])
                (Some true) None None) as (labels & Hr & Hs & _).
    exists labels. split; [exact Hr | apply Hs; discriminate].
Defined.

(** A container nested in another one lists nothing the outer one does
    not list: every label of the inner listing, its own label included
    when asked for, is a label of the outer listing in the same case. *)
Theorem Robust_nested_container (document : Document)
  (outer inner : Element)
  (includeInner includeOuter toLowerCase sortInner sortOuter : option bool) :
  Descendant outer inner ->
  exists innerLabels outerLabels,
    getUniqueDomElementsRobust document
      (Some (mkOptions (Some (VElement inner)) includeInner toLowerCase
                       sortInner))
    = Return innerLabels /\
    getUniqueDomElementsRobust document
      (Some (mkOptions (Some (VElement outer)) includeOuter toLowerCase
                       sortOuter))
    = Return outerLabels /\
    forall t, In t innerLabels -> In t outerLabels.
Proof.
  intros Hd. rewrite !Robust_on_element. do 2 eexists.
  split; [reflexivity |]. split; [reflexivity |].
  assert (Hsub : forall t,
             In t (labelled_sequence inner
                     (flag_or_default includeInner false)
                     (flag_or_default toLowerCase false)) ->
             In t (labelled_sequence outer
                     (flag_or_default includeOuter false)
                     (flag_or_default toLowerCase false))).
  { intros t Ht. apply labelled_sequence_In in Ht.
    destruct Ht as [e [He ->]]. apply labelled_sequence_In.
    exists e. split; [left | reflexivity].
    destruct He as [He | [_ ->]]; [| exact Hd].
    now apply Descendant_trans with inner. }
  intros t.
  destruct (flag_or_default sortInner true);
    destruct (flag_or_default sortOuter true); unfold Array_sort;
    rewrite ?Array_sort_by_In, !Set_from_In; apply Hsub.
Qed.

Lemma Robust_nested_container_witness :
  exists innerLabels outerLabels,
    getUniqueDomElementsRobust doc_div_span_p
      (Some (mkOptions (Some (VElement (node "DIV" [leaf "SPAN"])))
                       (Some true) None None))
    = Return innerLabels /\
    getUniqueDomElementsRobust doc_div_span_p
      (Some (mkOptions
               (Some (VElement
                        (node "BODY" [node "DIV" [leaf "SPAN"]; leaf "P"])))
               None None None))
    = Return outerLabels /\
    forall t, In t innerLabels -> In t outerLabels.
Proof.
  apply Robust_nested_container.
  apply Descendant_child. simpl. now left.
Defined.

(* ================================================================== *)
(** ** [analyzeDomStructure]: how its fields relate *)
(* ================================================================== *)

Lemma Set_from_length_le (l : list string) :
  (List.length (Set_from l) <= List.length l)%nat.
Proof.
  induction l as [| x l IH] using rev_ind; [apply Nat.le_refl |].
  rewrite Set_from_snoc, length_app. unfold Set_add. simpl.
  destruct (Set_has (Set_from l) x); [| rewrite length_app; simpl]; lia.
Qed.

Lemma Set_from_nil (l : list string) : Set_from l = [] <-> l = [].
Proof.
  split; [| now intros ->].
  destruct l as [| x l]; [reflexivity |]. intros H. exfalso.
  assert (Hin : In x (Set_from (x :: l))) by (apply Set_from_In; now left).
  rewrite H in Hin. destruct Hin.
Qed.

Lemma sortedByCount_length (document : Document) :
  List.length (sortedByCount document)
  = List.length (Set_from (visited_tags document)).
Proof.
  unfold sortedByCount.
  rewrite (Permutation_length (Array_sort_by_Permutation _ _)).
  rewrite <- build_tagCounts_keys. unfold Map_keys.
  now rewrite length_map.
Qed.

Lemma sortedByCount_nil (document : Document) :
  sortedByCount document = [] <-> bodyElements document = [].
Proof.
  rewrite <- !length_zero_iff_nil, sortedByCount_length.
  rewrite !length_zero_iff_nil, Set_from_nil. unfold visited_tags.
  split; [apply map_eq_nil | now intros ->].
Qed.

Lemma bodyElements_nil (document : Document) :
  bodyElements document = [] <-> ~ (exists e, BodyDescendant document e).
Proof.
  split.
  - intros H [e He]. apply bodyElements_spec in He. now rewrite H in He.
  - intros H. destruct (bodyElements document) as [| e l] eqn:E;
      [reflexivity |].
    exfalso. apply H. exists e. apply bodyElements_spec.
    rewrite E. now left.
Qed.

(** [uniqueElements] is the length of the list that
    [getUniqueDomElements] returns; it never exceeds [totalElements],
    and one is zero exactly when the other is. *)
Theorem uniqueElements_counts_labels (document : Document) :
  uniqueElements (analyzeDomStructure document)
  = Z.of_nat (List.length (getUniqueDomElements document)) /\
  0 <= uniqueElements (analyzeDomStructure document)
    <= totalElements (analyzeDomStructure document) /\
  (uniqueElements (analyzeDomStructure document) = 0 <->
   totalElements (analyzeDomStructure document) = 0).
Proof.
  cbn [analyzeDomStructure uniqueElements totalElements].
  unfold Map_size, getUniqueDomElements, Array_sort.
  rewrite (Permutation_length (Array_sort_by_Permutation _ _)).
  assert (Hlen : List.length (build_tagCounts document)
                 = List.length (Set_from (visited_tags document)))
    by (rewrite <- build_tagCounts_keys; unfold Map_keys;
        now rewrite length_map).
  rewrite Hlen. fold (visited_tags document).
  pose proof (Set_from_length_le (visited_tags document)) as Hle.
  assert (Hv : List.length (visited_tags document)
               = List.length (bodyElements document))
    by (unfold visited_tags; apply length_map).
  pose proof (Set_from_nil (visited_tags document)) as Hnil.
  rewrite <- !length_zero_iff_nil in Hnil.
  split; [reflexivity |]. split; [lia |]. lia.
Qed.

(** [mostCommon] and [leastCommon] are [null] exactly when
    [totalElements] is zero, that is when no element lies below the
    body (or there is no body). *)
Theorem common_null_iff_no_elements (document : Document) :
  (mostCommon (analyzeDomStructure document) = None <->
   totalElements (analyzeDomStructure document) = 0) /\
  (leastCommon (analyzeDomStructure document) = None <->
   totalElements (analyzeDomStructure document) = 0) /\
  (totalElements (analyzeDomStructure document) = 0 <->
   ~ (exists e, BodyDescendant document e)).
Proof.
  cbn [analyzeDomStructure mostCommon leastCommon totalElements].
  assert (Ht : Z.of_nat (List.length (bodyElements document)) = 0
               <-> sortedByCount document = []).
  { rewrite sortedByCount_nil, <- length_zero_iff_nil. lia. }
  rewrite !Ht. split; [| split].
  - destruct (sortedByCount document); simpl; split; intros H;
      try reflexivity; discriminate H.
  - destruct (snoc_cases (sortedByCount document))
      as [-> | [init [x ->]]]; [split; reflexivity |].
    rewrite map_app. cbn [map]. rewrite last_snoc.
    split; [discriminate |]. intros H. now destruct init.
  - rewrite sortedByCount_nil. apply bodyElements_nil.
Qed.

Lemma sum_Z_bounds (lo hi : Z) (l : list Z) :
  (forall x, In x l -> lo <= x <= hi) ->
  lo * Z.of_nat (List.length l) <= sum_Z l <= hi * Z.of_nat (List.length l).
Proof.
  unfold sum_Z. induction l as [| x l IH]; intros H;
    cbn [List.length fold_right]; [lia |].
  rewrite Nat2Z.inj_succ.
  assert (Hx : lo <= x <= hi) by (apply H; now left).
  assert (Hl : forall y, In y l -> lo <= y <= hi)
    by (intros y Hy; apply H; now right).
  specialize (IH Hl). nia.
Qed.

Lemma sortedByCount_extremes (document : Document)
  (most least a : string * Z) :
  hd_error (sortedByCount document) = Some most ->
  last (map Some (sortedByCount document)) None = Some least ->
  In a (sortedByCount document) ->
  1 <= snd least <= snd a /\ snd a <= snd most.
Proof.
  intros Hm Hl Ha.
  pose proof (sortedByCount_order document) as Hs.
  assert (Hpos : forall b, In b (sortedByCount document) -> 1 <= snd b).
  { intros [t n] Hb. apply sortedByCount_In in Hb.
    destruct Hb as [Ht ->]. apply occurrences_In in Ht. simpl. lia. }
  assert (Hleast : In least (sortedByCount document) /\
                   snd least <= snd a).
  { destruct (snoc_cases (sortedByCount document))
      as [E | [init [x E]]]; rewrite E in *; [destruct Ha |].
    rewrite map_app in Hl. cbn [map] in Hl. rewrite last_snoc in Hl.
    injection Hl as ->. split; [apply in_or_app; right; now left |].
    apply in_app_or in Ha. destruct Ha as [Ha | [<- | []]]; [| lia].
    destruct (StronglySorted_last _ _ _ Hs _ Ha) as [H | [H _]]; lia. }
  destruct Hleast as [Hlin Hle].
  split; [split; [now apply Hpos | exact Hle] |].
  destruct (sortedByCount document) as [| m rest]; [destruct Ha |].
  injection Hm as ->. apply StronglySorted_inv in Hs.
  destruct Hs as [_ Hall]. rewrite Forall_forall in Hall.
  destruct Ha as [<- | Ha]; [lia |].
  destruct (Hall _ Ha) as [H | [H _]]; lia.
Qed.

Lemma occurrences_le_length (t : string) (tags : list string) :
  occurrences t tags <= Z.of_nat (List.length tags).
Proof.
  induction tags as [| x tags IH]; cbn [occurrences List.length];
    [lia |].
  rewrite Nat2Z.inj_succ. destruct (String.eqb x t); lia.
Qed.

Lemma sortedByCount_sum (document : Document) :
  sum_Z (map snd (sortedByCount document))
  = Z.of_nat (List.length (bodyElements document)).
Proof.
  rewrite <- build_tagCounts_sum. apply sum_Z_Permutation.
  unfold Map_values, sortedByCount. apply Permutation_map.
  apply Array_sort_by_Permutation.
Qed.

(** When there are elements, the counts of [leastCommon] and
    [mostCommon] frame every count of the frequency table; the least
    count is at least one, the largest at most [totalElements], and
    [totalElements] lies between [uniqueElements] times the least count
    and [uniqueElements] times the largest. *)
Theorem common_counts_bound (document : Document)
  (most least : string * Z) :
  mostCommon (analyzeDomStructure document) = Some most ->
  leastCommon (analyzeDomStructure document) = Some least ->
  1 <= snd least <= snd most /\
  snd most <= totalElements (analyzeDomStructure document) /\
  snd least * uniqueElements (analyzeDomStructure document)
  <= totalElements (analyzeDomStructure document)
  <= snd most * uniqueElements (analyzeDomStructure document) /\
  forall t n,
    Map_get t (elementFrequency (analyzeDomStructure document)) = Some n ->
    snd least <= n <= snd most.
Proof.
  cbn [analyzeDomStructure mostCommon leastCommon totalElements
       uniqueElements elementFrequency].
  intros Hm Hl.
  rewrite Object_fromEntries_distinct by apply sortedByCount_NoDup.
  pose proof (sortedByCount_extremes document most least) as Hext.
  specialize (fun a => Hext a Hm Hl).
  assert (Hmin : In most (sortedByCount document))
    by (destruct (sortedByCount document); [discriminate |];
        injection Hm as ->; now left).
  assert (Hb : forall x, In x (map snd (sortedByCount document)) ->
                         snd least <= x <= snd most).
  { intros x Hx. apply in_map_iff in Hx. destruct Hx as [a [<- Ha]].
    destruct (Hext a Ha). lia. }
  pose proof (sum_Z_bounds _ _ _ Hb) as Hsum.
  rewrite sortedByCount_sum, length_map in Hsum.
  assert (Hu : Map_size (build_tagCounts document)
               = Z.of_nat (List.length (sortedByCount document))).
  { unfold Map_size, sortedByCount.
    now rewrite (Permutation_length (Array_sort_by_Permutation _ _)). }
  rewrite Hu. destruct (Hext most Hmin) as [[H1 H2] _].
  split; [lia |]. split; [| split; [exact Hsum |]].
  - destruct most as [t n]. apply sortedByCount_In in Hmin.
    destruct Hmin as [_ ->]. cbn [snd].
    pose proof (occurrences_le_length t (visited_tags document)) as Hle.
    unfold visited_tags in Hle at 2. now rewrite length_map in Hle.
  - intros t n Hg. apply Map_get_Some_In in Hg.
    destruct (Hext _ Hg). simpl in *. lia.
Qed.

Lemma common_counts_bound_witness :
  1 <= 1 <= 2 /\
  2 <= totalElements (analyzeDomStructure doc_p_div_div) /\
  1 * uniqueElements (analyzeDomStructure doc_p_div_div)
  <= totalElements (analyzeDomStructure doc_p_div_div)
  <= 2 * uniqueElements (analyzeDomStructure doc_p_div_div) /\
  forall t n,
    Map_get t (elementFrequency (analyzeDomStructure doc_p_div_div))
    = Some n -> 1 <= n <= 2.
Proof.
  apply (common_counts_bound doc_p_div_div ("DIV", 2) ("P", 1));
    reflexivity.
Defined.

Lemma children_depth_le_count (cs : list Element) :
  Forall (fun c => 0 <= nesting_depth c <= descendant_count c) cs ->
  0 <= fold_right (fun c acc => Z.max (1 + nesting_depth c) acc) 0 cs
    <= fold_right (fun c acc => 1 + descendant_count c + acc) 0 cs /\
  (cs <> [] ->
   1 <= fold_right (fun c acc => Z.max (1 + nesting_depth c) acc) 0 cs).
Proof.
  induction 1 as [| c cs Hc _ IH]; cbn [fold_right].
  - split; [lia | congruence].
  - destruct IH as [IH _]. split; [lia | intros _; lia].
Qed.

Lemma nesting_depth_le_count (e : Element) :
  0 <= nesting_depth e <= descendant_count e.
Proof.
  induction e as [t a c cs IH] using Element_induction.
  cbn [nesting_depth descendant_count].
  now apply children_depth_le_count.
Qed.

(** [deepestNesting] is never negative and never more than
    [totalElements]; it is zero exactly when [totalElements] is. *)
Theorem deepestNesting_bounds (document : Document) :
  0 <= deepestNesting (analyzeDomStructure document)
    <= totalElements (analyzeDomStructure document) /\
  (deepestNesting (analyzeDomStructure document) = 0 <->
   totalElements (analyzeDomStructure document) = 0).
Proof.
  cbn [analyzeDomStructure deepestNesting totalElements].
  rewrite getMaxNestingDepth_spec. unfold bodyElements.
  destruct (body document) as [b |]; [| simpl; lia].
  rewrite querySelectorAll_length.
  pose proof (nesting_depth_le_count b) as Hb.
  split; [exact Hb |].
  destruct b as [t a c cs]. cbn [nesting_depth descendant_count] in *.
  destruct cs as [| ch cs]; [simpl; lia |].
  assert (Hall : Forall (fun c => 0 <= nesting_depth c <= descendant_count c)
                        (ch :: cs))
    by (apply Forall_forall; intros x _; apply nesting_depth_le_count).
  destruct (children_depth_le_count _ Hall) as [_ H1].
  specialize (H1 ltac:(discriminate)). lia.
Qed.

(* ================================================================== *)
(** ** Option 3: what a metadata record holds *)
(* ================================================================== *)

Lemma find_split {A : Type} (f : A -> bool) (l : list A) (x : A) :
  find f l = Some x ->
  exists pre post,
    l = pre ++ x :: post /\ f x = true /\
    forall y, In y pre -> f y = false.
Proof.
  induction l as [| y l IH]; simpl; [discriminate |].
  destruct (f y) eqn:Hy.
  - intros [= ->]. exists [], l. repeat split; [exact Hy |].
    intros z [].
  - intros H. destruct (IH H) as (pre & post & -> & Hx & Hpre).
    exists (y :: pre), post. repeat split; [exact Hx |].
    intros z [<- | Hz]; [exact Hy | now apply Hpre].
Qed.

Lemma metadata_records_entry (localeCompare : string -> string -> Z)
  (document : Document) (r : TagMetadata) :
  In r (Array_sort_by
          (fun a b => localeCompare (md_tagName a) (md_tagName b))
          (Map_values (build_elementMap document))) ->
  metadata_of (bodyElements document) (md_tagName r) = Some r.
Proof.
  intros Hin. rewrite Array_sort_by_In in Hin.
  apply in_map_iff in Hin. destruct Hin as [[k r'] [<- Hin]].
  apply build_elementMap_entry in Hin. simpl.
  destruct Hin as [Hm ->]. exact Hm.
Qed.

Lemma metadata_of_fields (els : list Element) (t : string)
  (r : TagMetadata) :
  metadata_of els t = Some r ->
  md_tagName r = t /\
  count r = occurrences t (map tagName els) /\
  first_instance_of t els = Some (firstInstance r) /\
  firstInstanceAttributes r = attribute_snapshot (firstInstance r) /\
  firstInstanceClasses r = classList (firstInstance r).
Proof.
  unfold metadata_of.
  destruct (first_instance_of t els) as [e |]; [| discriminate].
  intros [= <-]. repeat split.
Qed.

(** With metadata, whatever [localeCompare] is, there is one record per
    distinct label.  Each record counts at least one element; its
    [firstInstance] carries the record's label and is the first element
    of the traversal that does; the classes recorded are those of that
    element. *)
Theorem metadata_first_instance (localeCompare : string -> string -> Z)
  (document : Document) :
  exists records,
    getUniqueDomElementsWithMetadata localeCompare document true
    = Metadata records /\
    Z.of_nat (List.length records)
    = uniqueElements (analyzeDomStructure document) /\
    forall r, In r records ->
      1 <= count r /\
      tagName (firstInstance r) = md_tagName r /\
      firstInstanceClasses r = classList (firstInstance r) /\
      exists before after,
        bodyElements document = before ++ firstInstance r :: after /\
        forall e, In e before -> tagName e <> md_tagName r.
Proof.
  eexists. split; [reflexivity |]. split.
  - rewrite (Permutation_length (Array_sort_by_Permutation _ _)).
    cbn [analyzeDomStructure uniqueElements]. unfold Map_size, Map_values.
    rewrite length_map. f_equal.
    rewrite <- (length_map fst (build_elementMap document)).
    rewrite <- (length_map fst (build_tagCounts document)).
    fold (Map_keys (build_elementMap document)).
    fold (Map_keys (build_tagCounts document)).
    now rewrite build_elementMap_keys, build_tagCounts_keys.
  - intros r Hr. apply metadata_records_entry in Hr.
    apply metadata_of_fields in Hr.
    destruct Hr as (Hname & Hcount & Hfirst & _ & Hclasses).
    unfold first_instance_of in Hfirst. apply find_split in Hfirst.
    destruct Hfirst as (pre & post & Hsplit & Htag & Hpre).
    apply String.eqb_eq in Htag.
    split; [| split; [exact Htag | split; [exact Hclasses |]]].
    + rewrite Hcount.
      assert (Hin : In (md_tagName r) (map tagName (bodyElements document))).
      { rewrite Hsplit, <- Htag. apply in_map, in_or_app.
        right. now left. }
      apply occurrences_In in Hin. lia.
    + exists pre, post. split; [exact Hsplit |].
      intros e He. apply Hpre in He. now apply String.eqb_neq in He.
Qed.

(** The metadata records and the frequency table agree: each record's
    count is the table's value for its label, and every entry of the
    table has its record. *)
Theorem metadata_agrees_with_frequency
  (localeCompare : string -> string -> Z) (document : Document) :
  exists records,
    getUniqueDomElementsWithMetadata localeCompare document true
    = Metadata records /\
    (forall r, In r records ->
       Map_get (md_tagName r)
               (elementFrequency (analyzeDomStructure document))
       = Some (count r)) /\
    (forall t n,
       Map_get t (elementFrequency (analyzeDomStructure document)) = Some n ->
       exists r, In r records /\ md_tagName r = t /\ count r = n).
Proof.
  eexists. split; [reflexivity |].
  cbn [analyzeDomStructure elementFrequency].
  rewrite Object_fromEntries_distinct by apply sortedByCount_NoDup.
  split.
  - intros r Hr. apply metadata_records_entry in Hr.
    pose proof Hr as Hf. apply metadata_of_fields in Hf.
    destruct Hf as (Hname & Hcount & Hfirst & _).
    apply Map_get_In; [apply sortedByCount_NoDup |].
    apply sortedByCount_In. split; [| exact Hcount].
    unfold first_instance_of in Hfirst. apply find_some in Hfirst.
    destruct Hfirst as [Hin Htag]. apply String.eqb_eq in Htag.
    unfold visited_tags. rewrite <- Htag. now apply in_map.
  - intros t n Hg. apply Map_get_Some_In in Hg.
    apply sortedByCount_In in Hg. destruct Hg as [Ht ->].
    pose proof Ht as Hk. rewrite <- Set_from_In in Hk.
    rewrite <- build_elementMap_keys in Hk.
    unfold Map_keys in Hk. apply in_map_iff in Hk.
    destruct Hk as [[k r] [Hkt Hin]]. simpl in Hkt. subst k.
    pose proof (build_elementMap_entry _ _ _ Hin) as [Hm Hname].
    exists r. split; [| split; [exact Hname |]].
    + rewrite Array_sort_by_In. apply in_map_iff. now exists (t, r).
    + apply metadata_of_fields in Hm. tauto.
Qed.

Lemma Map_set_new {V : Type} (k : string) (v : V) (o : list (string * V)) :
  ~ In k (Map_keys o) -> Map_set k v o = o ++ [(k, v)].
Proof.
  induction o as [| [k' v'] o IH]; cbn [Map_keys map fst Map_set app];
    intros Hk; [reflexivity |].
  destruct (String.eqb_spec k k') as [-> | _];
    [exfalso; apply Hk; now left |].
  rewrite IH; [reflexivity |]. intros H. apply Hk. now right.
Qed.

(** With distinct attribute names the [reduce] creates one property per
    attribute, in the order of the attributes, and none for
    [__proto__]. *)
Lemma assigned_distinct (attrs : list (string * string)) :
  forall o,
    NoDup (Map_keys (o ++ attrs)) ->
    fold_left (fun acc attr => Object_assign acc (fst attr) (snd attr))
              attrs o
    = o ++ filter (fun attr => negb (String.eqb (fst attr) "__proto__"))
                  attrs.
Proof.
  induction attrs as [| [k v] attrs IH]; intros o Hnd;
    cbn [fold_left filter fst snd].
  - now rewrite app_nil_r.
  - unfold Map_keys in Hnd. rewrite map_app in Hnd. cbn [map fst] in Hnd.
    unfold Object_assign.
    destruct (String.eqb k "__proto__"); cbn [negb].
    + apply IH. unfold Map_keys. rewrite map_app.
      now apply NoDup_remove_1 in Hnd.
    + rewrite Map_set_new.
      * rewrite IH; [now rewrite <- app_assoc |].
        unfold Map_keys. now rewrite <- app_assoc, map_app.
      * apply NoDup_remove_2 in Hnd. intros H. apply Hnd, in_or_app.
        now left.
Qed.

(** The attribute snapshot of a record holds, under each name other
    than [__proto__], the value of the last attribute of the first
    instance with this name, and nothing under [__proto__].  When the
    attribute names are distinct, as the attributes of an element are,
    the snapshot enumerates as the attributes without [__proto__] do;
    when moreover no name is an array index, it enumerates exactly
    these attributes in their order. *)
Theorem metadata_attribute_snapshot
  (localeCompare : string -> string -> Z) (document : Document) :
  exists records,
    getUniqueDomElementsWithMetadata localeCompare document true
    = Metadata records /\
    forall r, In r records ->
      (forall name,
         Map_get name (firstInstanceAttributes r)
         = if String.eqb name "__proto__" then None
           else last_attribute name (firstInstance r)) /\
      (NoDup (map fst (attributes (firstInstance r))) ->
       Object_entries (firstInstanceAttributes r)
       = Object_entries
           (filter (fun attr => negb (String.eqb (fst attr) "__proto__"))
                   (attributes (firstInstance r))) /\
       (Forall (fun attr => is_array_index (fst attr) = false)
               (attributes (firstInstance r)) ->
        Object_entries (firstInstanceAttributes r)
        = filter (fun attr => negb (String.eqb (fst attr) "__proto__"))
                 (attributes (firstInstance r)))).
Proof.
  eexists. split; [reflexivity |].
  intros r Hr. apply metadata_records_entry in Hr.
  apply metadata_of_fields in Hr. destruct Hr as (_ & _ & _ & Ha & _).
  rewrite Ha, <- assigned_is_snapshot. split.
  - intros name. rewrite assigned_get. unfold last_attribute. cbn [Map_get].
    destruct (String.eqb name "__proto__"); [reflexivity |].
    now destruct (Map_get name (rev (attributes (firstInstance r)))).
  - intros Hnd. rewrite (assigned_distinct _ [] Hnd). cbn [app].
    split; [reflexivity |]. intros Hidx.
    apply Object_entries_no_index. apply Forall_forall.
    intros k Hk. apply in_map_iff in Hk. destruct Hk as [attr [<- Hin]].
    apply filter_In in Hin. rewrite Forall_forall in Hidx.
    now apply Hidx.
Qed.

Lemma metadata_attribute_snapshot_witness :
  let first :=
    mkElement "DIV" [("id", "x"); ("__proto__", "y"); ("class", "a")]
              ["a"] [] in
  let r := mkTagMetadata "DIV" 2 first [("id", "x"); ("class", "a")] ["a"] in
  getUniqueDomElementsWithMetadata SortCompare
    (mkDocument (Some (node "BODY" [first; leaf "DIV"]))) true
  = Metadata [r] /\
  NoDup (map fst (attributes (firstInstance r))) /\
  Forall (fun attr => is_array_index (fst attr) = false)
         (attributes (firstInstance r)) /\
  Object_entries (firstInstanceAttributes r)
  = filter (fun attr => negb (String.eqb (fst attr) "__proto__"))
           (attributes (firstInstance r)).
Proof.
  intros first r.
  destruct (metadata_attribute_snapshot SortCompare
              (mkDocument (Some (node "BODY" [first; leaf "DIV"]))))
    as (records & Hr & Hall).
  assert (Hnd : NoDup (map fst (attributes (firstInstance r)))).
  { simpl. repeat constructor; simpl; intuition discriminate. }
  assert (Hidx : Forall (fun attr => is_array_index (fst attr) = false)
                        (attributes (firstInstance r))).
  { simpl. repeat constructor. }
  split; [reflexivity |]. split; [exact Hnd |]. split; [exact Hidx |].
  assert (Hin : In r records).
  { change (getUniqueDomElementsWithMetadata SortCompare
              (mkDocument (Some (node "BODY" [first; leaf "DIV"]))) true)
      with (Metadata [r]) in Hr.
    injection Hr as <-. now left. }
  exact (proj2 (proj2 (Hall r Hin) Hnd) Hidx).
Defined.
